(** * Chainlink: trigger functions, search query, and the run execution engine

    A shallow embedding of
    - [core/store/models/triggerfns/trigger_fns.go] (the trigger-function
      registry, the relative and absolute threshold strategies, [Scan]),
    - the explorer's [searchQuery] helper,
    - the Head Tracker, Job Run State Machine and Transaction Confirmation
      Coordinator, whose behaviour is taken from the specification. *)

From Stdlib Require Import ZArith QArith Qabs Qround Qpower Lia Lqa.
From stdpp Require Import gmap strings list.

Local Open Scope Z_scope.
Set Warnings "-register-all".

(** ** Go control flow: a call either returns or panics *)

Inductive exec (A : Type) : Type :=
| Return (a : A)
| Panic (msg : string).
Arguments Return {A} a.
Arguments Panic {A} msg.

Definition exec_bind {A B : Type} (m : exec A) (k : A -> exec B) : exec B :=
  match m with
  | Return a => k a
  | Panic msg => Panic msg
  end.

#[global] Instance exec_ret : MRet exec := fun A a => Return a.
#[global] Instance exec_mbind : MBind exec := fun A B k m => exec_bind m k.

(** ** [github.com/shopspring/decimal]

    A [Decimal] is [value * 10 ^ exp] with an arbitrary-precision
    coefficient ([*big.Int]) and an exponent.  The exponent is an [int32] in
    the library; the model keeps it in [Z] and leaves the library's overflow
    checks on exponent differences outside. *)

Module decimal.

Record Decimal : Type := mkDecimal { value : Z; exp : Z }.

(** [DivisionPrecision]: digits after the decimal point kept by [Div]. *)
Definition DivisionPrecision : Z := 16.

Definition New (v e : Z) : Decimal := mkDecimal v e.

(** [rescale]: same number at another exponent; going to a larger exponent
    truncates ([big.Int.Quo]). *)
Definition rescale (d : Decimal) (e : Z) : Decimal :=
  if exp d =? e then d
  else
    let diff := Z.abs (e - exp d) in
    let expScale := 10 ^ diff in
    if exp d <? e
    then mkDecimal (Z.quot (value d) expScale) e
    else mkDecimal (value d * expScale) e.

Definition Add (d d2 : Decimal) : Decimal :=
  let baseExp := Z.min (exp d) (exp d2) in
  let rd := rescale d baseExp in
  let rd2 := rescale d2 baseExp in
  mkDecimal (value rd + value rd2) (exp rd).

Definition Sub (d d2 : Decimal) : Decimal :=
  let baseExp := Z.min (exp d) (exp d2) in
  let rd := rescale d baseExp in
  let rd2 := rescale d2 baseExp in
  mkDecimal (value rd - value rd2) (exp rd).

Definition Abs (d : Decimal) : Decimal := mkDecimal (Z.abs (value d)) (exp d).

Definition Sign (d : Decimal) : Z := Z.sgn (value d).

(** [big.Int.Cmp]: -1, 0 or 1. *)
Definition bigCmp (x y : Z) : Z :=
  match x ?= y with
  | Lt => -1
  | Eq => 0
  | Gt => 1
  end.

Definition Cmp (d d2 : Decimal) : Z :=
  if exp d =? exp d2 then bigCmp (value d) (value d2)
  else
    let baseExp := Z.min (exp d) (exp d2) in
    let rd := rescale d baseExp in
    let rd2 := rescale d2 baseExp in
    bigCmp (value rd) (value rd2).

Definition LessThan (d d2 : Decimal) : bool := Cmp d d2 =? -1.

(** [QuoRem]: quotient [q], an integer multiple of [10^(-precision)], and
    remainder [r] with [d = d2 * q + r]; truncated division on the scaled
    coefficients ([big.Int.QuoRem]).  Panics on a zero divisor. *)
Definition QuoRem (d d2 : Decimal) (precision : Z) : exec (Decimal * Decimal) :=
  if Z.sgn (value d2) =? 0 then Panic "decimal division by 0"
  else
    let scale := - precision in
    let e := exp d - exp d2 - scale in
    let '(aa, bb, scalerest) :=
      if e <? 0
      then (value d, value d2 * 10 ^ (- e), exp d)
      else (value d * 10 ^ e, value d2, scale + exp d2) in
    let q := Z.quot aa bb in
    let r := Z.rem aa bb in
    Return (mkDecimal q scale, mkDecimal r scalerest).

(** [DivRound]: divide and round to a multiple of [10^(-precision)]; a
    remainder of at least half the divisor rounds away from zero. *)
Definition DivRound (d d2 : Decimal) (precision : Z) : exec Decimal :=
 '(q, r) ← QuoRem d d2 precision;
  let rv2 := Z.shiftl (Z.abs (value r)) 1 in
  let r2 := mkDecimal rv2 (exp r + precision) in
  let c := Cmp r2 (Abs d2) in
  if c <? 0 then Return q
  else if Z.sgn (value d) * Z.sgn (value d2) <? 0
       then Return (Sub q (New 1 (- precision)))
       else Return (Add q (New 1 (- precision))).

Definition Div (d d2 : Decimal) : exec Decimal :=
  DivRound d d2 DivisionPrecision.

(** The rational number a [Decimal] denotes. *)
Definition toQ (d : Decimal) : Q := (inject_Z (value d) * (10 # 1) ^ exp d)%Q.

(** The coefficients [QuoRem] divides: dividend and divisor brought to the
    exponent of the quotient. *)
Definition scaled_operands (d d2 : Decimal) (p : Z) : Z * Z :=
  let e := exp d - exp d2 + p in
  if e <? 0 then (value d, value d2 * 10 ^ (- e))
  else (value d * 10 ^ e, value d2).

(** Truncated quotient, moved one unit away from zero when the remainder is
    at least half the divisor. *)
Definition round_quot (aa bb : Z) : Z :=
  let q := Z.quot aa bb in
  let r := Z.rem aa bb in
  if 2 * Z.abs r <? Z.abs bb then q
  else if Z.sgn aa * Z.sgn bb <? 0 then q - 1 else q + 1.

(** On the rationals: the nearest integer, halves away from zero, and the
    nearest multiple of [10^(-p)]. *)
Definition Qround_half_away (x : Q) : Z :=
  (Z.sgn (Qnum x) * Qfloor (Qabs x + (1 # 2)))%Z.

Definition Qround_places (p : Z) (x : Q) : Q :=
  (inject_Z (Qround_half_away (x * (10 # 1) ^ p)) * (10 # 1) ^ (- p))%Q.

End decimal.

Import decimal.

(** ** Go values used by the package *)

(** A finite [float64], given by the shortest decimal literal
    [digits * 10 ^ exp10] that reads back as the same float, which is what
    [decimal.NewFromFloat] computes from it. *)
Record float64 : Type := mkFloat64 { digits : Z; exp10 : Z }.

(** The [float64] values that are no number of that form: the infinities
    and NaN.  [models.JSON] reads a JSON number too large for a float64,
    such as 1e999, as [PosInf]. *)
Inductive nonfinite : Type := PosInf | NegInf | NaN.

Definition float64_toQ (f : float64) : Q :=
  (inject_Z (digits f) * (10 # 1) ^ exp10 f)%Q.

(** [decimal.NewFromFloat] on a finite float: zero is [New(0, 0)], any
    other float its shortest digits and exponent. *)
Definition NewFromFloat (val : float64) : Decimal :=
  if digits val =? 0 then New 0 0 else mkDecimal (digits val) (exp10 val).

(** [decimal.NewFromFloat] on an infinity or NaN panics, with this text. *)
Definition NewFromFloat_panic (val : nonfinite) : string :=
  "Cannot create a Decimal from " +:+
  match val with
  | PosInf => "+Inf"
  | NegInf => "-Inf"
  | NaN => "NaN"
  end.

(** [interface{}] as the JSON decoder fills it.  A dynamic value of type
    [float64] is [any_float64] when finite and [any_nonfinite] otherwise;
    the type assertion [params.(float64)] holds for both. *)
Inductive any : Type :=
| any_nil
| any_bool (b : bool)
| any_float64 (f : float64)
| any_nonfinite (x : nonfinite)
| any_string (s : string)
| any_slice (l : list any)
| any_map (m : list (string * any)).

(** The double-quote character of the error formats. *)
Definition dquote : string := String (Ascii.ascii_of_nat 34) EmptyString.

(** Errors of [github.com/pkg/errors]; [None] is the nil error. *)
Inductive error_value : Type :=
| Errorf (format : string) (args : list any)
| Wrapf (cause : error_value) (format : string) (args : list any).

Definition error : Type := option error_value.

(** ** [package triggerfns] *)

Module triggerfns.

(** The [TriggerFn] interface. *)
Class TriggerFn (T : Type) : Type := {
  Triggering : T -> Decimal -> Decimal -> list any -> exec (bool * error);
  Parameters : T -> any;
  Factory : T -> string
}.

Record floatTriggerFn : Type := mkFloatTriggerFn {
  triggering : Decimal -> Decimal -> list any -> exec (bool * error);
  factory : string;
  parameters : float64
}.

#[global] Instance floatTriggerFn_TriggerFn : TriggerFn floatTriggerFn := {
  Triggering t current new extraData := triggering t current new extraData;
  Parameters t := any_float64 (parameters t);
  Factory t := factory t
}.

(** A value of interface type [TriggerFn]: nil, or the one implementation
    the package has. *)
Definition TriggerFnValue : Type := option floatTriggerFn.

(** The factories.  A [float64] parameter goes to [decimal.NewFromFloat]
    first: a finite one gives the trigger function, an infinity or NaN
    panics there; any other parameter gives the error. *)
Definition relativeThresholdFactory (params : any)
  : exec (TriggerFnValue * error) :=
  match params with
  | any_float64 threshold =>
      let dthreshold := NewFromFloat threshold in
      Return
        (Some {| triggering := fun current new extraData =>
                   if negb (Sign current =? 0)
                   then
                     quo ← Div (Sub current new) current;
                     Return (negb (LessThan (Abs quo) dthreshold), None)
                   else Return (negb (Sign new =? 0), None);
                 factory := "relativeThreshold";
                 parameters := threshold |},
         None)
  | any_nonfinite threshold => Panic (NewFromFloat_panic threshold)
  | _ =>
      Return (None, Some (Errorf "expected float parameter, got %+v" [params]))
  end.

Definition absoluteThresholdFactory (params : any)
  : exec (TriggerFnValue * error) :=
  match params with
  | any_float64 threshold =>
      let dthreshold := NewFromFloat threshold in
      Return
        (Some {| triggering := fun current new extraData =>
                   Return (negb (LessThan (Abs (Sub current new)) dthreshold),
                           None);
                 factory := "absoluteThreshold";
                 parameters := threshold |},
         None)
  | any_nonfinite threshold => Panic (NewFromFloat_panic threshold)
  | _ =>
      Return (None, Some (Errorf "expected float parametr, got %+v" [params]))
  end.

(** [triggerFnFactories]: names of the trigger functions of a JSON job spec
    to their factories. *)
Definition triggerFnFactories
  : gmap string (any -> exec (TriggerFnValue * error)) :=
  <["relativeThreshold" := relativeThresholdFactory]>
    (<["absoluteThreshold" := absoluteThresholdFactory]> ∅).

(** [makeTriggerFn].  The source returns the bare error on the two failing
    paths (the [TriggerFn] result is nil there) and ends without a return
    statement after a successful factory call; the model returns the
    [triggerFn] the factory built with a nil error on that path, a
    completion of the source that no property of the failing or panicking
    paths relies on.  The test [err != nil] before the factory call reads
    no error that exists at that point and contributes nothing.  A panic of
    the factory passes through. *)
Definition makeTriggerFn (triggerFunctionName : string) (params : any)
  : exec (TriggerFnValue * error) :=
  match triggerFnFactories !! triggerFunctionName with
  | None =>
      Return
        (None,
         Some (Errorf ("trigger function " +:+ dquote +:+ "%s" +:+ dquote
                       +:+ " uknown")
                 [any_string triggerFunctionName]))
  | Some triggerFnFactory =>
      '(triggerFn, err) ← triggerFnFactory params;
      match err with
      | Some e =>
          Return
            (None,
             Some (Wrapf e
                     ("while deserializing trigger function " +:+ dquote
                      +:+ "%s" +:+ dquote +:+ " from parameters %s")
                     [any_string triggerFunctionName; params]))
      | None => Return (triggerFn, None)
      end
  end.

(** *** Slices of [TriggerFn]

    [TriggerFns] is [[]TriggerFn]: a header (backing array, offset, length,
    capacity) over a store of backing arrays that headers may share. *)

Record TriggerFns : Type := mkSlice {
  array : nat;
  offset : nat;
  len : nat;
  cap : nat
}.

Abbreviation heap := (gmap nat (list TriggerFnValue)).

(** The elements a holder of header [f] sees. *)
Definition elems (h : heap) (f : TriggerFns) : list TriggerFnValue :=
  take (len f) (drop (offset f) (default [] (h !! array f))).

(** The runtime's invariant for a slice header: the length is within the
    capacity, and a header with capacity points into an allocated array
    that covers it. *)
Definition wf_slice (h : heap) (f : TriggerFns) : Prop :=
  (len f <= cap f)%nat /\
  ((0 < cap f)%nat ->
   exists a, h !! array f = Some a /\ (offset f + cap f <= length a)%nat).

(** [behind g f]: appending through header [f] writes behind the elements
    of header [g], or into another array, or [g] has no elements at all. *)
Definition behind (g f : TriggerFns) : Prop :=
  array f = array g ->
  cap g = 0%nat \/ (offset g + len g <= offset f + len f)%nat.

Section Scanning.

(** The runtime's capacity policy for a grown slice, from the old capacity
    and the length needed; the new capacity is at least that length. *)
Variable growslice : nat -> nat -> nat.

(** [models.JSON], which is not part of this package: [Scan] into a fresh
    value, [IsObject], [AsMap] and [String]. *)
Context {JSON : Type}.
Variable JSON_Scan : any -> JSON * error.
Variable JSON_IsObject : JSON -> bool.
Variable JSON_AsMap : JSON -> list (string * any) * error.
Variable JSON_String : JSON -> string.

(** The built-in [append]: writes in place when capacity is left,
    otherwise copies into a fresh backing array. *)
Definition append (h : heap) (f : TriggerFns) (x : TriggerFnValue)
  : heap * TriggerFns :=
  if decide (len f < cap f)%nat
  then (alter (fun a => <[(offset f + len f)%nat := x]> a) (array f) h,
        mkSlice (array f) (offset f) (S (len f)) (cap f))
  else
    let newcap := Nat.max (S (len f)) (growslice (cap f) (S (len f))) in
    let a := fresh (dom h) in
    (<[a := elems h f ++ x :: replicate (newcap - S (len f)) None]> h,
     mkSlice a 0 (S (len f)) newcap).

Definition getTriggerFnMap (value : any) : list (string * any) * error :=
  let '(json, err) := JSON_Scan value in
  match err with
  | Some e =>
      ([], Some (Wrapf e "while trying to parse %s as trigger-function map"
                   [value]))
  | None =>
      if negb (JSON_IsObject json)
      then ([], Some (Errorf "trigger-function map %s should be a JSON object"
                        [any_string (JSON_String json)]))
      else
        let '(asMap, err) := JSON_AsMap json in
        match err with
        | Some e =>
            ([], Some (Wrapf e "could not read trigger-function map %s"
                         [any_string (JSON_String json)]))
        | None => (asMap, None)
        end
  end.

(** The body of the [range] loop of [Scan], over the entries in the order
    the map yields them; [f] is the receiver copy.  A panic of
    [makeTriggerFn] ends the loop; what was appended before it stays in the
    store. *)
Fixpoint Scan_range (asMap : list (string * any)) (h : heap) (f : TriggerFns)
  : heap * exec TriggerFns :=
  match asMap with
  | [] => (h, Return f)
  | (triggerFunctionName, params) :: rest =>
      match makeTriggerFn triggerFunctionName params with
      | Panic msg => (h, Panic msg)
      | Return (triggerFn, err) =>
          let '(h', f') := append h f triggerFn in
          Scan_range rest h' f'
      end
  end.

(** [TriggerFns.Scan], value receiver: the callee works on its own copy
    [f] of the header; the caller gets the store back, and the error or the
    panic. *)
Definition Scan (f : TriggerFns) (value : any) (h : heap)
  : heap * exec error :=
  let '(asMap, err) := getTriggerFnMap value in
  match err with
  | Some e => (h, Return (Some e))
  | None =>
      let '(h', r) := Scan_range asMap h f in
      (h', _ ← r; Return None)
  end.

(** What the loop of [Scan] appends: the result of [makeTriggerFn] for each
    entry, up to the first entry on which it panics. *)
Fixpoint parsed (asMap : list (string * any)) : list TriggerFnValue :=
  match asMap with
  | [] => []
  | (triggerFunctionName, params) :: rest =>
      match makeTriggerFn triggerFunctionName params with
      | Panic _ => []
      | Return (triggerFn, err) => triggerFn :: parsed rest
      end
  end.

(** No entry of the object gives a registered name an infinity or NaN as
    its parameter. *)
Definition finite_parameters (asMap : list (string * any)) : Prop :=
  Forall (fun e => forall x, e.2 = any_nonfinite x ->
                             triggerFnFactories !! e.1 = None) asMap.

End Scanning.

Section Serializing.

(** [models.JSON], which is not part of this package: [MultiAdd] on the
    empty value and [Bytes]. *)
Context {JSON : Type}.
Variable JSON_MultiAdd : gmap string any -> JSON * error.
Variable JSON_Bytes : JSON -> string.

(** The [range] loop of [Value] over the elements of the collection;
    [entries] is the [models.KV] being filled.  A method call on a nil
    [TriggerFn] panics with the runtime's nil-dereference error. *)
Fixpoint Value_range (fns : list TriggerFnValue) (entries : gmap string any)
  : exec (gmap string any) :=
  match fns with
  | [] => Return entries
  | None :: _ =>
      Panic "runtime error: invalid memory address or nil pointer dereference"
  | Some tfn :: rest =>
      Value_range rest (<[Factory tfn := Parameters tfn]> entries)
  end.

(** The collection as an argument of an error format. *)
Definition show_fns (fns : list TriggerFnValue) : any :=
  any_slice
    ((fun x : TriggerFnValue =>
        match x with
        | Some tfn => any_map [(Factory tfn, Parameters tfn)]
        | None => any_nil
        end) <$> fns).

(** [TriggerFns.Value]: the serialized bytes, or nil and an error. *)
Definition Value (f : TriggerFns) (h : heap) : exec (option string * error) :=
  entries ← Value_range (elems h f) ∅;
  let '(asJSON, err) := JSON_MultiAdd entries in
  match err with
  | Some e =>
      Return (None,
              Some (Wrapf e "while serializing trigger functions %+v"
                      [show_fns (elems h f)]))
  | None => Return (Some (JSON_Bytes asJSON), None)
  end.

End Serializing.

End triggerfns.

(** ** Explorer client: [searchQuery] *)

Module explorer.

(** [string | undefined]. *)
Definition SearchQuery : Type := option string.

(** [URLSearchParams.get]: the value of the first pair with that name, or
    null. *)
Fixpoint URLSearchParams_get (name : string) (params : list (string * string))
  : option string :=
  match params with
  | [] => None
  | (k, v) :: rest =>
      if String.eqb k name then Some v else URLSearchParams_get name rest
  end.

(** Truthiness of a JS string: only the empty string is falsy. *)
Definition truthy (s : string) : bool :=
  match s with
  | EmptyString => false
  | String _ _ => true
  end.

(** The URL's query has parameter [name] with value [v]: [v] belongs to
    the first pair of that name. *)
Definition has_param (name : string) (params : list (string * string))
  (v : string) : Prop :=
  exists pre post,
    params = pre ++ (name, v) :: post /\ forall w, (name, w) ∉ pre.

Section SearchQuery.

(** The platform: [Location], its [toString], and the [URL] constructor
    with its [searchParams] as name/value pairs in order (the constructor
    throws on an invalid URL). *)
Context {Location : Type}.
Variable toString : Location -> string.
Variable new_URL_searchParams : string -> exec (list (string * string)).

Definition searchQuery (location : Location) : exec SearchQuery :=
  searchParams ← new_URL_searchParams (toString location);
  let search := URLSearchParams_get "search" searchParams in
  match search with
  | Some s => if truthy s then Return (Some s) else Return None
  | None => Return None
  end.

End SearchQuery.

End explorer.

(** ** The run execution engine

    The Head Tracker, the Job Run State Machine and the Transaction
    Confirmation Coordinator, defined after the specification's component
    contracts (sections 3, 4.1, 4.2 and 4.4). *)

Module engine.

Definition Hash : Type := string.

(** Modelled from the spec: the Head record, which is not in the sources:
    "{hash, parentHash, number, timestamp}". *)
Record Head : Type := mkHead {
  hash : Hash;
  parentHash : Hash;
  number : Z;
  timestamp : Z
}.

#[global] Instance Head_eq_dec : EqDecision Head.
Proof. solve_decision. Defined.

(** Modelled from the spec: the events the Head Tracker emits, which are not
    in the sources: "HeadConfirmed(hash, depth)" and "Reorg(commonAncestor,
    discardedHashes, newHashes)". *)
Inductive Event : Type :=
| HeadConfirmed (h : Hash) (depth : nat)
| Reorg (commonAncestor : Head) (discardedHashes : list Hash)
        (newHashes : list Hash).

Definition is_Reorg (e : Event) : bool :=
  match e with
  | Reorg _ _ _ => true
  | HeadConfirmed _ _ => false
  end.

(** Modelled from the spec: the Head Tracker's state, which is not in the
    sources.  [view] is the HeadChainView, "a bounded ordered sequence of
    recent Heads (newest first)"; [maxDepth] is "the maximum tracked
    confirmation depth"; [thresholds] are the depths subscribers
    "registered interest in". *)
Record HeadTracker : Type := mkHeadTracker {
  view : list Head;
  maxDepth : nat;
  thresholds : list nat
}.

(** Modelled from the spec: the tracker's lookup of a head by hash, which is
    not in the sources; the position of the first head with hash [h]. *)
Fixpoint index_of (h : Hash) (v : list Head) : option nat :=
  match v with
  | [] => None
  | x :: rest =>
      if decide (hash x = h) then Some O else S <$> index_of h rest
  end.

(** Modelled from the spec: [confirmationsOf(hash)], which is not in the
    sources: "number of descendant heads observed for a given head", read
    off the position in the newest-first view; [None] is the "unknown"
    result for a head that "was pruned or never seen". *)
Definition confirmationsOf (t : HeadTracker) (h : Hash) : option nat :=
  index_of h (view t).

(** Modelled from the spec: pruning, which is not in the sources: "Heads
    deeper than the maximum tracked confirmation depth are pruned". *)
Definition prune (d : nat) (v : list Head) : list Head := take (S d) v.

(** The HeadChainView is "a single linked chain (each entry's parentHash
    equals the hash of the entry after it)". *)
Fixpoint linked (v : list Head) : Prop :=
  match v with
  | [] => True
  | a :: rest =>
      match rest with
      | [] => True
      | b :: _ => parentHash a = hash b
      end /\ linked rest
  end.

(** "For any two heads the tracker holds, if A.parentHash == B.hash then
    A.number == B.number + 1." *)
Definition numbered (v : list Head) : Prop :=
  forall a b, a ∈ v -> b ∈ v -> parentHash a = hash b ->
              number a = number b + 1.

(** The same of a collection of heads given by a predicate: the headers a
    chain client hands out. *)
Definition well_numbered (P : Head -> Prop) : Prop :=
  forall a b, P a -> P b -> parentHash a = hash b -> number a = number b + 1.

(** The adapter answers [getHeadByHash(hash)] with a head of that hash. *)
Definition adapter_sound (getHeadByHash : Hash -> option Head) : Prop :=
  forall h x, getHeadByHash h = Some x -> hash x = h.

Section Tracker.

(** Chain Client Adapter: [getHeadByHash(hash) -> Head]; [None] when the
    adapter cannot supply the head. *)
Variable getHeadByHash : Hash -> option Head.

(** Modelled from the spec: the backward walk of reorg reconciliation,
    which is not in the sources: "walks backward from the new head
    (fetching ancestors from the Chain Client Adapter as needed) until it
    finds a common ancestor with the existing view".  Returns the new
    branch, newest first, and the position of the common ancestor in the
    view; [fuel] bounds the number of ancestors fetched. *)
Fixpoint walk_back (fuel : nat) (v : list Head) (current : Head)
  : option (list Head * nat) :=
  match index_of (parentHash current) v with
  | Some i => Some ([current], i)
  | None =>
      match fuel with
      | O => None
      | S fuel' =>
          p ← getHeadByHash (parentHash current);
          '(branch, i) ← walk_back fuel' v p;
          Some (current :: branch, i)
      end
  end.

(** Modelled from the spec: the [HeadConfirmed] events of one view change,
    which are not in the sources: "whenever any tracked head crosses a
    depth threshold a subscriber registered interest in".  A head at depth
    [d] of the new view crosses a threshold [th <= d] when it was above
    that threshold, or not in the view, before. *)
Definition crossed (old : list Head) (thr : list nat) (d : nat) (x : Head)
  : bool :=
  existsb (fun th =>
             bool_decide (th <= d)%nat &&
             match index_of (hash x) old with
             | Some d0 => bool_decide (d0 < th)%nat
             | None => true
             end) thr.

Definition confirmed_events (old new : list Head) (thr : list nat)
  : list Event :=
  omap (fun '(d, x) =>
          if crossed old thr d x then Some (HeadConfirmed (hash x) d)
          else None)
       (imap (fun d x => (d, x)) new).

(** Modelled from the spec: [onNewHead(head)], which is not in the
    sources.  "If head.parentHash matches the current top of the chain
    view, appends it and advances the confirmation count of all entries by
    one.  If it does not match ..., performs reorg reconciliation: walks
    backward from the new head ... until it finds a common ancestor with
    the existing view, discards the superseded branch, and replaces it
    with the new branch."  A [Reorg] event is raised "whenever
    reconciliation discards a branch".  When the walk finds no common
    ancestor the view is left as it is ("no partial heads are
    admitted"). *)
Definition onNewHead (t : HeadTracker) (head : Head)
  : HeadTracker * list Event :=
  match view t with
  | [] =>
      let v' := prune (maxDepth t) [head] in
      (mkHeadTracker v' (maxDepth t) (thresholds t),
       confirmed_events [] v' (thresholds t))
  | top :: _ =>
      if decide (parentHash head = hash top)
      then
        let v' := prune (maxDepth t) (head :: view t) in
        (mkHeadTracker v' (maxDepth t) (thresholds t),
         confirmed_events (view t) v' (thresholds t))
      else
        match walk_back (maxDepth t) (view t) head with
        | None => (t, [])
        | Some (branch, i) =>
            let discarded := take i (view t) in
            let kept := drop i (view t) in
            let v' := prune (maxDepth t) (branch ++ kept) in
            let reorg :=
              match discarded, kept with
              | _ :: _, ancestor :: _ =>
                  [Reorg ancestor (hash <$> discarded) (hash <$> branch)]
              | _, _ => []
              end in
            (mkHeadTracker v' (maxDepth t) (thresholds t),
             reorg ++ confirmed_events (view t) v' (thresholds t))
        end
  end.

End Tracker.

(** *** Transaction Confirmation Coordinator *)

(** Modelled from the spec: the status of a PendingTransaction, which is
    not in the sources: "status ∈ {Submitted, Confirmed, Invalidated,
    Fatal}". *)
Inductive TxStatus : Type := Submitted | Confirmed | Invalidated | Fatal.

#[global] Instance TxStatus_eq_dec : EqDecision TxStatus.
Proof. solve_decision. Defined.

(** Modelled from the spec: the PendingTransaction record, which is not in
    the sources: "{id, fromRun, payload, nonce, submittedAtHead,
    requiredConfirmations, status}".  [submittedAtHead] is the head the
    Coordinator persisted with the transaction, the one its confirmation
    depth is counted from. *)
Record PendingTransaction : Type := mkPendingTransaction {
  tx_id : nat;
  fromRun : nat;
  payload : string;
  nonce : nat;
  submittedAtHead : Head;
  requiredConfirmations : nat;
  tx_status : TxStatus
}.

Definition set_status (st : TxStatus) (tx : PendingTransaction)
  : PendingTransaction :=
  mkPendingTransaction (tx_id tx) (fromRun tx) (payload tx) (nonce tx)
    (submittedAtHead tx) (requiredConfirmations tx) st.

(** Modelled from the spec: the Coordinator's reaction to [HeadConfirmed],
    which is not in the sources: "checks whether the transaction's inclusion
    head has reached the Run's/task's required confirmation depth; if so
    transitions the PendingTransaction to Confirmed". *)
Definition onHeadConfirmed (h : Hash) (depth : nat) (tx : PendingTransaction)
  : PendingTransaction :=
  match tx_status tx with
  | Submitted =>
      if bool_decide (hash (submittedAtHead tx) = h)
         && bool_decide (requiredConfirmations tx ≤ depth)%nat
      then set_status Confirmed tx
      else tx
  | _ => tx
  end.

(** Modelled from the spec: the Coordinator's reaction to [Reorg], which is
    not in the sources: "checks whether any Submitted/Confirmed transaction
    was included only in a discarded branch; if so marks it Invalidated".
    Resubmission goes through [submit] and the Chain Client Adapter and is
    not part of this step. *)
Definition onReorg (discardedHashes : list Hash) (tx : PendingTransaction)
  : PendingTransaction :=
  match tx_status tx with
  | Submitted | Confirmed =>
      if bool_decide (hash (submittedAtHead tx) ∈ discardedHashes)
      then set_status Invalidated tx
      else tx
  | _ => tx
  end.

(** Modelled from the spec: the Coordinator's dispatch on the event type,
    which is not in the sources. *)
Definition react (e : Event) (tx : PendingTransaction) : PendingTransaction :=
  match e with
  | HeadConfirmed h depth => onHeadConfirmed h depth tx
  | Reorg _ discardedHashes _ => onReorg discardedHashes tx
  end.

(** Modelled from the spec: the Coordinator's event handler, which is not in
    the sources; it applies an event to every transaction it owns. *)
Definition handle_event (txs : gmap nat PendingTransaction) (e : Event)
  : gmap nat PendingTransaction :=
  react e <$> txs.

(** Modelled from the spec: the Head Tracker and the Coordinator together,
    which are not in the sources, each "a single logical serial actor": one
    head event is reconciled, then its events are handled in order. *)
Record System : Type := mkSystem {
  tracker : HeadTracker;
  txs : gmap nat PendingTransaction
}.

Definition deliver (getHeadByHash : Hash -> option Head) (s : System)
  (head : Head) : System :=
  let '(t', events) := onNewHead getHeadByHash (tracker s) head in
  mkSystem t' (foldl handle_event (txs s) events).

Definition run_heads (getHeadByHash : Hash -> option Head) (s : System)
  (heads : list Head) : System :=
  foldl (deliver getHeadByHash) s heads.

Definition status_of (s : System) (id : nat) : option TxStatus :=
  tx_status <$> txs s !! id.

(** The tracker's view once the head at position [j] of the sequence has
    been delivered. *)
Definition view_after (getHeadByHash : Hash -> option Head) (s : System)
  (heads : list Head) (j : nat) : list Head :=
  view (tracker (run_heads getHeadByHash s (take (S j) heads))).

(** [descends held k d a]: [d] is reached from [a] by [k] parent links
    through heads that are all [held]: [d] itself and every head on the way
    from [d] down to the child of [a]. *)
Inductive descends (held : Head -> Prop) : nat -> Head -> Head -> Prop :=
| descends_child d a :
    held d -> parentHash d = hash a -> descends held 1 d a
| descends_more k d m a :
    held d -> parentHash d = hash m -> descends held k m a ->
    descends held (S k) d a.

(** A chain for the examples: H1 <- H2 <- H3 and the competing branch
    H1 <- H2' <- H3' <- H4', with an adapter that serves nothing. *)
Definition H1 : Head := mkHead "H1" "H0" 1 10.
Definition H2 : Head := mkHead "H2" "H1" 2 20.
Definition H3 : Head := mkHead "H3" "H2" 3 30.
Definition H2' : Head := mkHead "H2'" "H1" 2 21.
Definition H3' : Head := mkHead "H3'" "H2'" 3 31.
Definition H4' : Head := mkHead "H4'" "H3'" 4 41.

Definition example_chain : list Head := [H1; H2; H3; H2'; H3'; H4'].

Definition no_adapter : Hash -> option Head := fun _ => None.

Definition example_tracker : HeadTracker := mkHeadTracker [H3; H2; H1] 5 [3%nat].

(** A transaction submitted at H1 that needs three confirmations. *)
Definition example_tx : PendingTransaction :=
  mkPendingTransaction 7 1 "0xdata" 0 H1 3 Submitted.

Definition example_system : System :=
  mkSystem (mkHeadTracker [H1] 5 [3%nat]) {[ 7%nat := example_tx ]}.

(** *** Job Run State Machine *)

(** Modelled from the spec: the statuses of a Run and of a TaskRun, which
    are not in the sources. *)
Inductive RunStatus : Type :=
| Unstarted | InProgress | PendingConfirmation | Completed | Errored
| Cancelled.

Inductive TaskRunStatus : Type := Pending | TaskCompleted | TaskErrored.

(** Modelled from the spec: the Job, TaskRun and Run records, which are not
    in the sources. *)
Record Job : Type := mkJob {
  job_id : nat;
  triggerSpec : string;
  taskSpecs : list string
}.

Record TaskRun : Type := mkTaskRun {
  taskId : nat;
  task_status : TaskRunStatus;
  input : string;
  output : string;
  task_error : option string;
  confirmedTx : option nat
}.

Record Run : Type := mkRun {
  run_id : nat;
  jobId : nat;
  status : RunStatus;
  taskRuns : list TaskRun;
  createdAt : Z;
  finishedAt : option Z
}.

(** Modelled from the spec: the persistent store of Runs, which is not in
    the sources: rows of persisted Runs with their idempotency key, and "a
    uniqueness constraint for idempotency keys". *)
Record RunRow : Type := mkRunRow {
  idempotencyKey : string;
  triggerPayload : string;
  run : Run
}.

Record Store : Type := mkStore {
  rows : list RunRow;
  nextRunId : nat
}.

(** Modelled from the spec: the store's lookup of a Run by idempotency key,
    which is not in the sources. *)
Fixpoint find_by_key (key : string) (rs : list RunRow) : option Run :=
  match rs with
  | [] => None
  | r :: rest =>
      if String.eqb (idempotencyKey r) key then Some (run r)
      else find_by_key key rest
  end.

(** Modelled from the spec: the store's "unique-constraint-based idempotent
    insert", which is not in the sources: the row is added unless a row
    with its key exists, in which case that row's Run is reported. *)
Definition insert_unique (row : RunRow) (rs : list RunRow)
  : Run + list RunRow :=
  match find_by_key (idempotencyKey row) rs with
  | Some existing => inl existing
  | None => inr (rs ++ [row])
  end.

(** Modelled from the spec: [createRun(job, triggerPayload, idempotencyKey)
    -> Run], which is not in the sources: "Uses the idempotency key ... as a
    uniqueness constraint in the persistent store; a duplicate create
    returns the existing Run rather than creating a second one"; "the Run
    is persisted unstarted". *)
Definition createRun (job : Job) (payload : string) (key : string) (now : Z)
  (st : Store) : Store * Run :=
  let fresh := mkRun (nextRunId st) (job_id job) Unstarted [] now None in
  match insert_unique (mkRunRow key payload fresh) (rows st) with
  | inl existing => (st, existing)
  | inr rows' => (mkStore rows' (S (nextRunId st)), fresh)
  end.

(** The uniqueness constraint of the store: no two rows share a key. *)
Definition unique_keys (st : Store) : Prop :=
  NoDup (idempotencyKey <$> rows st).

(** Number of persisted Runs under a key. *)
Definition run_count (key : string) (st : Store) : nat :=
  length (filter (fun r => idempotencyKey r = key) (rows st)).

End engine.

(** * Properties *)

(** ** The decimal operations against the rationals they denote *)

Section DecimalFacts.

Local Open Scope Q_scope.

Lemma ten_neq_0 : ~ (10 # 1) == 0.
Proof. discriminate. Qed.

Lemma pow10_pos (e : Z) : 0 < (10 # 1) ^ e.
Proof. apply Qpower_0_lt. reflexivity. Qed.

Lemma pow10_Z (k : Z) : (0 <= k)%Z -> inject_Z (10 ^ k) == (10 # 1) ^ k.
Proof. intros Hk. apply (Zpower_Qpower 10 k Hk). Qed.

Lemma pow10_Z_pos (k : Z) : (0 <= k)%Z -> (0 < 10 ^ k)%Z.
Proof. intros Hk. apply Z.pow_pos_nonneg; lia. Qed.

(** Rescaling to a smaller or equal exponent is exact. *)
Lemma rescale_down (d : Decimal) (e : Z) :
  (e <= exp d)%Z ->
  exp (rescale d e) = e /\
  value (rescale d e) = (value d * 10 ^ (exp d - e))%Z.
Proof.
  intros He. unfold rescale.
  destruct (Z.eqb_spec (exp d) e) as [Heq | Hne].
  - subst e. rewrite Z.sub_diag, Z.pow_0_r. split; [reflexivity | lia].
  - destruct (Z.ltb_spec (exp d) e) as [Hlt | _]; [lia |].
    simpl. split; [reflexivity |].
    replace (Z.abs (e - exp d)) with (exp d - e)%Z by lia. reflexivity.
Qed.

Lemma toQ_scaled (v e k : Z) :
  (0 <= k)%Z ->
  inject_Z (v * 10 ^ k) * (10 # 1) ^ e == inject_Z v * (10 # 1) ^ (k + e).
Proof.
  intros Hk. rewrite inject_Z_mult, (pow10_Z k Hk).
  rewrite (Qpower_plus _ k e ten_neq_0). ring.
Qed.

Lemma toQ_rescale_down (d : Decimal) (e : Z) :
  (e <= exp d)%Z -> toQ (rescale d e) == toQ d.
Proof.
  intros He. destruct (rescale_down d e He) as [Hexp Hval].
  unfold toQ. rewrite Hexp, Hval.
  rewrite toQ_scaled by lia.
  replace (exp d - e + e)%Z with (exp d) by lia. reflexivity.
Qed.

Lemma toQ_Sub (a b : Decimal) : toQ (Sub a b) == toQ a - toQ b.
Proof.
  unfold Sub. set (m := Z.min (exp a) (exp b)).
  assert (Ha : (m <= exp a)%Z) by (unfold m; lia).
  assert (Hb : (m <= exp b)%Z) by (unfold m; lia).
  rewrite <- (toQ_rescale_down a m Ha), <- (toQ_rescale_down b m Hb).
  destruct (rescale_down a m Ha) as [Hea _].
  destruct (rescale_down b m Hb) as [Heb _].
  unfold toQ; cbn [value exp]. rewrite Hea, Heb.
  unfold Z.sub. rewrite inject_Z_plus, inject_Z_opp. ring.
Qed.

Lemma toQ_Add (a b : Decimal) : toQ (Add a b) == toQ a + toQ b.
Proof.
  unfold Add. set (m := Z.min (exp a) (exp b)).
  assert (Ha : (m <= exp a)%Z) by (unfold m; lia).
  assert (Hb : (m <= exp b)%Z) by (unfold m; lia).
  rewrite <- (toQ_rescale_down a m Ha), <- (toQ_rescale_down b m Hb).
  destruct (rescale_down a m Ha) as [Hea _].
  destruct (rescale_down b m Hb) as [Heb _].
  unfold toQ; cbn [value exp]. rewrite Hea, Heb.
  rewrite inject_Z_plus. ring.
Qed.

Lemma toQ_Abs (d : Decimal) : toQ (Abs d) == Qabs (toQ d).
Proof.
  unfold toQ, Abs; cbn [value exp]. rewrite Qabs_Qmult.
  rewrite (Qabs_pos ((10 # 1) ^ exp d)) by (apply Qlt_le_weak, pow10_pos).
  reflexivity.
Qed.

Lemma bigCmp_lt (x y : Z) : bigCmp x y = (-1)%Z <-> (x < y)%Z.
Proof.
  unfold bigCmp. destruct (Z.compare_spec x y); split; intros; lia.
Qed.

Lemma scaled_lt (x y e : Z) :
  (x < y)%Z <-> inject_Z x * (10 # 1) ^ e < inject_Z y * (10 # 1) ^ e.
Proof.
  rewrite Zlt_Qlt. symmetry. apply Qmult_lt_r. apply pow10_pos.
Qed.

(** [Cmp] compares the denoted numbers. *)
Lemma Cmp_lt (a b : Decimal) : Cmp a b = (-1)%Z <-> toQ a < toQ b.
Proof.
  unfold Cmp. destruct (Z.eqb_spec (exp a) (exp b)) as [Heq | _].
  - rewrite bigCmp_lt. unfold toQ. rewrite Heq. apply scaled_lt.
  - set (m := Z.min (exp a) (exp b)).
    assert (Ha : (m <= exp a)%Z) by (unfold m; lia).
    assert (Hb : (m <= exp b)%Z) by (unfold m; lia).
    rewrite <- (toQ_rescale_down a m Ha), <- (toQ_rescale_down b m Hb).
    destruct (rescale_down a m Ha) as [Hea _].
    destruct (rescale_down b m Hb) as [Heb _].
    rewrite bigCmp_lt. unfold toQ. rewrite Hea, Heb. apply scaled_lt.
Qed.

Lemma LessThan_spec (a b : Decimal) : LessThan a b = true <-> toQ a < toQ b.
Proof. unfold LessThan. rewrite Z.eqb_eq. apply Cmp_lt. Qed.

Lemma not_LessThan_spec (a b : Decimal) :
  negb (LessThan a b) = true <-> toQ b <= toQ a.
Proof.
  rewrite negb_true_iff, <- not_true_iff_false, LessThan_spec.
  split; [apply Qnot_lt_le | apply Qle_not_lt].
Qed.

Lemma Sign_zero (d : Decimal) : Sign d = 0%Z <-> toQ d == 0.
Proof.
  unfold Sign, toQ. rewrite Z.sgn_null_iff. split.
  - intros ->. ring.
  - intros H. apply Qmult_integral in H. destruct H as [H | H].
    + unfold Qeq in H; simpl in H. lia.
    + pose proof (pow10_pos (exp d)) as Hp. rewrite H in Hp.
      exfalso. revert Hp. apply Qlt_irrefl.
Qed.

Lemma toQ_NewFromFloat (t : float64) : toQ (NewFromFloat t) == float64_toQ t.
Proof.
  unfold NewFromFloat, float64_toQ.
  destruct (Z.eqb_spec (digits t) 0) as [H0 | _]; [| reflexivity].
  rewrite H0. unfold toQ; simpl. ring.
Qed.

End DecimalFacts.

Section Rounding.

Local Open Scope Q_scope.

Lemma sgn_Qnum_comp (x y : Q) : x == y -> Z.sgn (Qnum x) = Z.sgn (Qnum y).
Proof.
  unfold Qeq. intros H.
  assert (Hx : Z.sgn (Qnum x) = Z.sgn (Qnum x * QDen y)).
  { rewrite Z.sgn_mul. simpl. lia. }
  assert (Hy : Z.sgn (Qnum y) = Z.sgn (Qnum y * QDen x)).
  { rewrite Z.sgn_mul. simpl. lia. }
  congruence.
Qed.

#[global] Instance Qround_half_away_comp : Proper (Qeq ==> eq) Qround_half_away.
Proof.
  intros x y H. unfold Qround_half_away.
  rewrite (sgn_Qnum_comp x y H). f_equal.
  apply Qfloor_comp. rewrite H. reflexivity.
Qed.

#[global] Instance Qround_places_comp (p : Z) :
  Proper (Qeq ==> Qeq) (Qround_places p).
Proof.
  intros x y H. unfold Qround_places.
  assert (Hxy : x * (10 # 1) ^ p == y * (10 # 1) ^ p) by (rewrite H; reflexivity).
  rewrite (Qround_half_away_comp _ _ Hxy). reflexivity.
Qed.

Lemma sgn_Qnum_div (a b : Z) :
  Z.sgn (Qnum (inject_Z a / inject_Z b)) = (Z.sgn a * Z.sgn b)%Z.
Proof.
  destruct b as [| pb | pb]; unfold Qdiv, Qinv, Qmult, inject_Z; simpl.
  - lia.
  - rewrite Z.mul_1_r. lia.
  - destruct a; simpl; reflexivity.
Qed.

Lemma floor_half_nonneg (A B : Z) :
  (0 <= A)%Z -> (0 < B)%Z ->
  ((2 * A + B) / (2 * B) =
   A / B + (if 2 * (A mod B) <? B then 0 else 1))%Z.
Proof.
  intros HA HB.
  pose proof (Z.div_mod A B ltac:(lia)) as Hdm.
  pose proof (Z.mod_pos_bound A B HB) as Hr.
  destruct (Z.ltb_spec (2 * (A mod B)) B) as [Hlt | Hge].
  - symmetry. apply (Z.div_unique _ _ _ (2 * (A mod B) + B)); lia.
  - symmetry. apply (Z.div_unique _ _ _ (2 * (A mod B) - B)); lia.
Qed.

Lemma Qabs_half (a b : Z) :
  b <> 0%Z ->
  Qabs (inject_Z a / inject_Z b) + (1 # 2) ==
  inject_Z (2 * Z.abs a + Z.abs b) / inject_Z (2 * Z.abs b).
Proof.
  intros Hb.
  unfold Qdiv at 1. rewrite Qabs_Qmult, Qabs_Qinv.
  change (Qabs (inject_Z a)) with (inject_Z (Z.abs a)).
  change (Qabs (inject_Z b)) with (inject_Z (Z.abs b)).
  rewrite inject_Z_plus, !inject_Z_mult.
  assert (Hnz : ~ inject_Z (Z.abs b) == 0).
  { unfold Qeq; simpl. lia. }
  field. exact Hnz.
Qed.

Lemma quot_sgn_abs (aa bb : Z) :
  bb <> 0%Z ->
  Z.quot aa bb = (Z.sgn aa * Z.sgn bb * (Z.abs aa / Z.abs bb))%Z.
Proof.
  intros Hb. rewrite <- Z.quot_div_nonneg by lia.
  rewrite (Z.quot_abs aa bb Hb).
  pose proof (Z.quot_rem' aa bb) as Hqr.
  pose proof (Z.rem_bound_abs aa bb Hb) as Hrb.
  pose proof (Z.rem_sign_mul aa bb Hb) as Hrs.
  destruct (Z.sgn_spec aa) as [[Ha ->] | [[Ha ->] | [Ha ->]]];
    destruct (Z.sgn_spec bb) as [[Hbs ->] | [[Hbs ->] | [Hbs ->]]];
    try lia.
  - assert (0 <= Z.quot aa bb)%Z by (apply Z.quot_pos; lia). lia.
  - assert (Z.quot aa bb <= 0)%Z.
    { rewrite <- (Z.opp_involutive bb), Z.quot_opp_r by lia.
      assert (0 <= Z.quot aa (- bb))%Z by (apply Z.quot_pos; lia). lia. }
    lia.
  - subst aa. rewrite Z.quot_0_l by lia. reflexivity.
  - subst aa. rewrite Z.quot_0_l by lia. reflexivity.
  - assert (Z.quot aa bb <= 0)%Z.
    { rewrite <- (Z.opp_involutive aa), Z.quot_opp_l by lia.
      assert (0 <= Z.quot (- aa) bb)%Z by (apply Z.quot_pos; lia). lia. }
    lia.
  - assert (0 <= Z.quot aa bb)%Z.
    { rewrite <- (Z.opp_involutive aa), <- (Z.opp_involutive bb).
      rewrite Z.quot_opp_opp by lia. apply Z.quot_pos; lia. }
    lia.
Qed.

(** Truncated division with the half-divisor test rounds to nearest,
    halves away from zero. *)
Lemma round_quot_spec (aa bb : Z) :
  bb <> 0%Z ->
  round_quot aa bb = Qround_half_away (inject_Z aa / inject_Z bb).
Proof.
  intros Hb. unfold Qround_half_away.
  rewrite sgn_Qnum_div.
  rewrite (Qfloor_comp _ _ (Qabs_half aa bb Hb)).
  rewrite <- Zdiv_Qdiv.
  rewrite floor_half_nonneg by lia.
  unfold round_quot.
  rewrite <- (Z.rem_mod_nonneg (Z.abs aa) (Z.abs bb)) by lia.
  rewrite (Z.rem_abs aa bb Hb).
  rewrite (quot_sgn_abs aa bb Hb).
  assert (Hs : (Z.sgn aa * Z.sgn bb = 0 -> Z.rem aa bb = 0)%Z).
  { intros H0. assert (aa = 0%Z) by lia. subst aa.
    apply Z.rem_0_l. exact Hb. }
  pose proof (Z.rem_bound_abs aa bb Hb) as Hrb.
  destruct (Z.ltb_spec (2 * Z.abs (Z.rem aa bb)) (Z.abs bb));
    destruct (Z.ltb_spec (Z.sgn aa * Z.sgn bb) 0);
    destruct (Z.sgn_spec aa) as [[Ha ->] | [[Ha ->] | [Ha ->]]];
    destruct (Z.sgn_spec bb) as [[Hbs ->] | [[Hbs ->] | [Hbs ->]]];
    try lia.
Qed.

End Rounding.

Section Division.

Local Open Scope Q_scope.

Lemma bigCmp_neg (x y : Z) : (bigCmp x y <? 0)%Z = (x <? y)%Z.
Proof.
  unfold bigCmp. destruct (Z.compare_spec x y);
    destruct (Z.ltb_spec x y); try reflexivity; lia.
Qed.

Lemma Cmp_neg (a b : Decimal) : (Cmp a b <? 0)%Z = LessThan a b.
Proof.
  unfold LessThan, Cmp, bigCmp.
  destruct (exp a =? exp b)%Z;
    match goal with |- context [(?x ?= ?y)%Z] => destruct (x ?= y)%Z end;
    reflexivity.
Qed.

Lemma LessThan_scaled (x y e : Z) :
  LessThan (mkDecimal x e) (mkDecimal y e) = (x <? y)%Z.
Proof.
  rewrite <- Cmp_neg. unfold Cmp; cbn [exp value].
  rewrite Z.eqb_refl. apply bigCmp_neg.
Qed.

Lemma LessThan_ext (a b : Decimal) (x y : Z) :
  (toQ a < toQ b <-> (x < y)%Z) -> LessThan a b = (x <? y)%Z.
Proof.
  intros H. destruct (Z.ltb_spec x y) as [Hlt | Hge].
  - apply LessThan_spec, H, Hlt.
  - apply not_true_iff_false. rewrite LessThan_spec, H. lia.
Qed.

Lemma scaled_operands_nonzero (d d2 : Decimal) (p : Z) :
  value d2 <> 0%Z -> snd (scaled_operands d d2 p) <> 0%Z.
Proof.
  intros Hb. unfold scaled_operands.
  destruct (Z.ltb_spec (exp d - exp d2 + p) 0) as [He | He]; simpl.
  - pose proof (pow10_Z_pos (- (exp d - exp d2 + p)) ltac:(lia)). nia.
  - exact Hb.
Qed.

(** [DivRound] is the rounded quotient of the scaled coefficients. *)
Lemma DivRound_round_quot (d d2 : Decimal) (p : Z) :
  value d2 <> 0%Z ->
  DivRound d d2 p =
  Return (mkDecimal (round_quot (fst (scaled_operands d d2 p))
                                (snd (scaled_operands d d2 p))) (- p)).
Proof.
  intros Hb. unfold DivRound, QuoRem, scaled_operands.
  destruct (Z.eqb_spec (Z.sgn (value d2)) 0) as [H0 | _]; [lia |].
  replace (exp d - exp d2 - - p)%Z with (exp d - exp d2 + p)%Z by lia.
  set (e := (exp d - exp d2 + p)%Z).
  destruct (Z.ltb_spec e 0) as [He | He];
    cbn [mbind exec_mbind exec_bind fst snd value exp].
  - (* the divisor is scaled *)
    set (bb := (value d2 * 10 ^ (- e))%Z).
    pose proof (pow10_Z_pos (- e) ltac:(lia)) as Hpow.
    rewrite Cmp_neg.
    rewrite (LessThan_ext _ _ (2 * Z.abs (Z.rem (value d) bb)) (Z.abs bb)).
    2:{ rewrite Z.shiftl_mul_pow2 by lia.
        unfold toQ, Abs; cbn [value exp].
        assert (Hd2 : inject_Z (Z.abs (value d2)) * (10 # 1) ^ exp d2 ==
                      inject_Z (Z.abs bb) * (10 # 1) ^ (exp d + p)).
        { unfold bb. rewrite Z.abs_mul, (Z.abs_eq (10 ^ (- e))) by lia.
          rewrite toQ_scaled by lia.
          replace (- e + (exp d + p))%Z with (exp d2) by (unfold e; lia).
          reflexivity. }
        rewrite Hd2, <- scaled_lt. lia. }
    unfold round_quot.
    assert (Hsg : Z.sgn bb = Z.sgn (value d2)).
    { unfold bb. rewrite Z.sgn_mul, (Z.sgn_pos (10 ^ (- e))) by lia. lia. }
    rewrite Hsg.
    destruct (2 * Z.abs (Z.rem (value d) bb) <? Z.abs bb)%Z; [reflexivity |].
    destruct (Z.sgn (value d) * Z.sgn (value d2) <? 0)%Z;
      unfold Sub, Add, New, rescale; cbn [value exp];
      rewrite Z.min_id, Z.eqb_refl; reflexivity.
  - (* the dividend is scaled *)
    set (aa := (value d * 10 ^ e)%Z).
    pose proof (pow10_Z_pos e He) as Hpow.
    rewrite Cmp_neg.
    rewrite (LessThan_ext _ _ (2 * Z.abs (Z.rem aa (value d2)))
               (Z.abs (value d2))).
    2:{ rewrite Z.shiftl_mul_pow2 by lia.
        unfold toQ, Abs; cbn [value exp].
        replace (- p + exp d2 + p)%Z with (exp d2) by lia.
        rewrite <- scaled_lt. lia. }
    unfold round_quot.
    assert (Hsg : Z.sgn aa = Z.sgn (value d)).
    { unfold aa. rewrite Z.sgn_mul, (Z.sgn_pos (10 ^ e)) by lia. lia. }
    rewrite Hsg.
    destruct (2 * Z.abs (Z.rem aa (value d2)) <? Z.abs (value d2))%Z;
      [reflexivity |].
    destruct (Z.sgn (value d) * Z.sgn (value d2) <? 0)%Z;
      unfold Sub, Add, New, rescale; cbn [value exp];
      rewrite Z.min_id, Z.eqb_refl; reflexivity.
Qed.

Lemma scaled_operands_ratio (d d2 : Decimal) (p : Z) :
  value d2 <> 0%Z ->
  inject_Z (fst (scaled_operands d d2 p)) /
  inject_Z (snd (scaled_operands d d2 p)) ==
  toQ d / toQ d2 * (10 # 1) ^ p.
Proof.
  intros Hb. unfold scaled_operands, toQ.
  set (e := (exp d - exp d2 + p)%Z).
  assert (Hbq : ~ inject_Z (value d2) == 0).
  { unfold Qeq; simpl. lia. }
  pose proof (Qpower_not_0 (10 # 1) (exp d2) ten_neq_0) as H2.
  pose proof (Qpower_not_0 (10 # 1) (exp d) ten_neq_0) as H1.
  pose proof (Qpower_not_0 (10 # 1) p ten_neq_0) as Hp.
  destruct (Z.ltb_spec e 0) as [He | He]; cbn [fst snd].
  - pose proof (Qpower_not_0 (10 # 1) (- e) ten_neq_0) as Hne.
    rewrite inject_Z_mult, (pow10_Z (- e)) by lia.
    assert (Hexp : (10 # 1) ^ exp d2 ==
                   (10 # 1) ^ (- e) * ((10 # 1) ^ exp d * (10 # 1) ^ p)).
    { rewrite <- !(Qpower_plus _ _ _ ten_neq_0).
      replace (- e + (exp d + p))%Z with (exp d2) by (unfold e; lia).
      reflexivity. }
    rewrite Hexp. field. repeat split; assumption.
  - rewrite inject_Z_mult, (pow10_Z e) by lia.
    assert (Hexp : (10 # 1) ^ exp d * (10 # 1) ^ p ==
                   (10 # 1) ^ e * (10 # 1) ^ exp d2).
    { rewrite <- !(Qpower_plus _ _ _ ten_neq_0).
      replace (e + exp d2)%Z with (exp d + p)%Z by (unfold e; lia).
      reflexivity. }
    transitivity (inject_Z (value d) * ((10 # 1) ^ e * (10 # 1) ^ exp d2)
                  / (inject_Z (value d2) * (10 # 1) ^ exp d2)).
    + field. split; assumption.
    + rewrite <- Hexp. field. split; assumption.
Qed.

(** [DivRound] returns the quotient rounded to [p] decimal places, halves
    away from zero. *)
Lemma DivRound_spec (d d2 : Decimal) (p : Z) :
  Sign d2 <> 0%Z ->
  exists r, DivRound d d2 p = Return r /\
            toQ r == Qround_places p (toQ d / toQ d2).
Proof.
  intros Hs. assert (Hb : value d2 <> 0%Z).
  { unfold Sign in Hs. intros H0. rewrite H0 in Hs. apply Hs. reflexivity. }
  eexists. split; [apply DivRound_round_quot, Hb |].
  unfold toQ at 1; cbn [value exp]. unfold Qround_places.
  rewrite round_quot_spec by (apply scaled_operands_nonzero, Hb).
  rewrite (Qround_half_away_comp _ _ (scaled_operands_ratio d d2 p Hb)).
  reflexivity.
Qed.

(** The library's documented quotients: 1/3 and 2/3 at 16 places, and the
    panic on a zero divisor. *)
Example Div_one_third :
  Div (New 1 0) (New 3 0) = Return (mkDecimal 3333333333333333 (-16)).
Proof. reflexivity. Qed.

Example Div_two_thirds :
  Div (New 2 0) (New 3 0) = Return (mkDecimal 6666666666666667 (-16)).
Proof. reflexivity. Qed.

Example Div_by_zero : Div (New 1 0) (New 0 5) = Panic "decimal division by 0".
Proof. reflexivity. Qed.

End Division.

(** ** Trigger functions *)

Section TriggerFunctions.

Import triggerfns.
Local Open Scope Q_scope.

(** C5: the registry of trigger functions holds exactly the names
    "relativeThreshold" and "absoluteThreshold", and [makeTriggerFn] with
    any other name returns an error and the nil [TriggerFn]. *)
Theorem registry_exactly_two :
  dom triggerFnFactories
  = ({[ "relativeThreshold"; "absoluteThreshold" ]} : gset string)
  /\ forall (name : string) (params : any),
       name ∉ ({[ "relativeThreshold"; "absoluteThreshold" ]} : gset string) ->
       makeTriggerFn name params
       = Return
           (None,
            Some (Errorf ("trigger function " +:+ dquote +:+ "%s" +:+ dquote
                          +:+ " uknown") [any_string name])).
Proof.
  assert (Hdom : dom triggerFnFactories
                 = ({[ "relativeThreshold"; "absoluteThreshold" ]}
                    : gset string)).
  { unfold triggerFnFactories. rewrite !dom_insert_L, dom_empty_L.
    set_solver. }
  split; [exact Hdom |].
  intros name params Hname. rewrite <- Hdom in Hname.
  apply not_elem_of_dom in Hname.
  unfold makeTriggerFn.
  destruct (triggerFnFactories !! name) eqn:E; [congruence | reflexivity].
Qed.

Lemma registry_exactly_two_witness :
  ("medianThreshold" ∉ ({[ "relativeThreshold"; "absoluteThreshold" ]}
                        : gset string))
  /\ makeTriggerFn "medianThreshold" (any_float64 (mkFloat64 5 (-1)))
     = Return
         (None,
          Some (Errorf ("trigger function " +:+ dquote +:+ "%s" +:+ dquote
                        +:+ " uknown") [any_string "medianThreshold"])).
Proof.
  assert (H : "medianThreshold"
              ∉ ({[ "relativeThreshold"; "absoluteThreshold" ]}
                 : gset string)).
  { apply not_elem_of_union. split; apply not_elem_of_singleton; discriminate. }
  split; [exact H |].
  exact (proj2 registry_exactly_two "medianThreshold" _ H).
Defined.

Lemma Abs_Sub_comm (a b : Decimal) : Abs (Sub a b) = Abs (Sub b a).
Proof.
  unfold Abs, Sub; cbn [value exp]. rewrite (Z.min_comm (exp b) (exp a)).
  set (m := Z.min (exp a) (exp b)).
  destruct (rescale_down a m ltac:(unfold m; lia)) as [Hea _].
  destruct (rescale_down b m ltac:(unfold m; lia)) as [Heb _].
  rewrite Hea, Heb. f_equal. lia.
Qed.

(** C7: the absoluteThreshold trigger function returns true exactly when
    |current - new| >= t, with a nil error, and the result is the same
    with current and new exchanged. *)
Theorem absoluteThreshold_triggering
  (threshold : float64) (current new : Decimal) (extraData : list any) :
  exists (fn : floatTriggerFn) (b : bool),
    absoluteThresholdFactory (any_float64 threshold) = Return (Some fn, None)
    /\ Triggering fn current new extraData = Return (b, None)
    /\ (b = true <->
        float64_toQ threshold <= Qabs (toQ current - toQ new))
    /\ Triggering fn new current extraData
       = Triggering fn current new extraData.
Proof.
  eexists. eexists. split; [reflexivity |].
  cbn [Triggering floatTriggerFn_TriggerFn triggering].
  split; [reflexivity |]. split.
  - rewrite not_LessThan_spec, toQ_Abs, toQ_Sub, toQ_NewFromFloat.
    reflexivity.
  - rewrite (Abs_Sub_comm new current). reflexivity.
Qed.

(** C8: the relativeThreshold trigger function returns for all inputs (the
    division is only reached with current != 0, so it never divides by
    zero), and for current = 0 it returns true exactly when new != 0,
    whatever the threshold. *)
Theorem relativeThreshold_total
  (threshold : float64) (current new : Decimal) (extraData : list any) :
  exists (fn : floatTriggerFn) (b : bool),
    relativeThresholdFactory (any_float64 threshold) = Return (Some fn, None)
    /\ Triggering fn current new extraData = Return (b, None)
    /\ (toQ current == 0 -> (b = true <-> ~ toQ new == 0)).
Proof.
  eexists.
  destruct (Z.eq_dec (Sign current) 0%Z) as [H0 | Hn0].
  - exists (negb (Sign new =? 0)%Z). split; [reflexivity |].
    cbn [Triggering floatTriggerFn_TriggerFn triggering].
    rewrite H0. cbn [Z.eqb negb]. split; [reflexivity |].
    intros _. rewrite negb_true_iff, Z.eqb_neq, Sign_zero. reflexivity.
  - destruct (DivRound_spec (Sub current new) current DivisionPrecision Hn0)
      as (quo & Hquo & _).
    exists (negb (LessThan (Abs quo) (NewFromFloat threshold))).
    split; [reflexivity |].
    cbn [Triggering floatTriggerFn_TriggerFn triggering].
    apply Z.eqb_neq in Hn0 as Hn0'. rewrite Hn0'. cbn [negb].
    unfold Div. rewrite Hquo. split; [reflexivity |].
    intros Hz. apply Sign_zero in Hz. contradiction.
Qed.

Lemma relativeThreshold_total_witness :
  exists (fn : floatTriggerFn) (b : bool),
    relativeThresholdFactory (any_float64 (mkFloat64 5 (-1)))
    = Return (Some fn, None)
    /\ Triggering fn (New 0 0) (New 7 (-2)) [] = Return (b, None)
    /\ b = true.
Proof.
  destruct (relativeThreshold_total (mkFloat64 5 (-1)) (New 0 0) (New 7 (-2)) [])
    as (fn & b & Hf & Ht & Hb).
  exists fn, b. split; [exact Hf |]. split; [exact Ht |].
  apply Hb; [reflexivity | discriminate].
Defined.

(** What the relativeThreshold trigger function computes: with current != 0
    it returns true exactly when the quotient (current - new) / current,
    rounded to 16 decimal places with halves away from zero, is at least t
    in absolute value; the error is nil. *)
Lemma relativeThreshold_triggering_rounded
  (threshold : float64) (current new : Decimal) (extraData : list any) :
  ~ toQ current == 0 ->
  exists (fn : floatTriggerFn) (b : bool),
    relativeThresholdFactory (any_float64 threshold) = Return (Some fn, None)
    /\ Triggering fn current new extraData = Return (b, None)
    /\ (b = true <->
        float64_toQ threshold
        <= Qabs (Qround_places 16 ((toQ current - toQ new) / toQ current))).
Proof.
  intros Hc. rewrite <- Sign_zero in Hc.
  destruct (DivRound_spec (Sub current new) current DivisionPrecision Hc)
    as (quo & Hquo & Hval).
  eexists. exists (negb (LessThan (Abs quo) (NewFromFloat threshold))).
  split; [reflexivity |].
  cbn [Triggering floatTriggerFn_TriggerFn triggering].
  apply Z.eqb_neq in Hc as Hc'. rewrite Hc'. cbn [negb].
  unfold Div. rewrite Hquo. split; [reflexivity |].
  rewrite not_LessThan_spec, toQ_Abs, toQ_NewFromFloat, Hval.
  unfold DivisionPrecision. rewrite toQ_Sub. reflexivity.
Qed.

Lemma relativeThreshold_triggering_rounded_example :
  exists (fn : floatTriggerFn) (b : bool),
    relativeThresholdFactory (any_float64 (mkFloat64 5 (-1)))
    = Return (Some fn, None)
    /\ Triggering fn (New 4 0) (New 1 0) [] = Return (b, None)
    /\ (b = true <->
        float64_toQ (mkFloat64 5 (-1))
        <= Qabs (Qround_places 16
                   ((toQ (New 4 0) - toQ (New 1 0)) / toQ (New 4 0)))).
Proof.
  apply (relativeThreshold_triggering_rounded
           (mkFloat64 5 (-1)) (New 4 0) (New 1 0) []).
  discriminate.
Defined.

(** C6 (relativeThreshold returns true exactly when
    |current - new| / |current| >= t) at t = 0.5, current = 1 and
    new = 0.50000000000000001: the function returns true with a nil error,
    although |current - new| / |current| = 0.49999999999999999 < t; the
    quotient has been rounded to 0.5. *)
Theorem relativeThreshold_rounding_at_half :
  let threshold := mkFloat64 5 (-1) in
  let current := New 1 0 in
  let new := New 50000000000000001 (-17) in
  exists fn : floatTriggerFn,
    relativeThresholdFactory (any_float64 threshold) = Return (Some fn, None)
    /\ ~ toQ current == 0
    /\ Triggering fn current new [] = Return (true, None)
    /\ ~ (float64_toQ threshold
          <= Qabs (toQ current - toQ new) / Qabs (toQ current)).
Proof.
  cbv zeta. eexists. split; [reflexivity |].
  split; [discriminate |]. split; [vm_compute; reflexivity |].
  vm_compute. intros H. apply H. reflexivity.
Qed.

End TriggerFunctions.

(** ** [TriggerFns.Scan] and the caller's slice *)

Section ScanFrame.

Import triggerfns.
Local Open Scope nat_scope.

Variable growslice : nat -> nat -> nat.
Context {JSON : Type}.
Variable JSON_Scan : any -> JSON * error.
Variable JSON_IsObject : JSON -> bool.
Variable JSON_AsMap : JSON -> list (string * any) * error.
Variable JSON_String : JSON -> string.

Lemma elems_insert_behind (a : list TriggerFnValue) (g : TriggerFns)
  (i : nat) (x : TriggerFnValue) :
  (offset g + len g <= i)%nat ->
  take (len g) (drop (offset g) (<[i := x]> a))
  = take (len g) (drop (offset g) a).
Proof.
  intros Hi. apply list_eq. intros k.
  destruct (decide (k < len g)%nat) as [Hk | Hk].
  - rewrite !lookup_take_lt, !lookup_drop by lia.
    apply list_lookup_insert_ne. lia.
  - rewrite !lookup_take_ge by lia. reflexivity.
Qed.

Lemma append_frame (h : heap) (f g : TriggerFns) (x : TriggerFnValue) :
  wf_slice h g -> behind g f ->
  elems (append growslice h f x).1 g = elems h g
  /\ wf_slice (append growslice h f x).1 g
  /\ behind g (append growslice h f x).2.
Proof.
  intros Hg Hb. unfold append.
  destruct (decide (len f < cap f)%nat) as [Hlt | Hge]; cbn [fst snd].
  - split; [| split].
    + unfold elems.
      destruct (decide (array f = array g)) as [Heq | Hne].
      * destruct (Hb Heq) as [H0 | Hi].
        { destruct Hg as [Hlen _].
          replace (len g) with 0 by lia. reflexivity. }
        rewrite <- Heq, lookup_alter_eq.
        destruct (h !! array f) as [a |]; cbn; [| reflexivity].
        apply elems_insert_behind. exact Hi.
      * rewrite lookup_alter_ne by exact Hne. reflexivity.
    + destruct Hg as [Hlen Hcap]. split; [exact Hlen |].
      intros Hc. destruct (Hcap Hc) as (a & Ha & Hla).
      destruct (decide (array f = array g)) as [Heq | Hne].
      * rewrite <- Heq, lookup_alter_eq. rewrite Heq, Ha. cbn.
        eexists. split; [reflexivity |]. rewrite length_insert. exact Hla.
      * rewrite lookup_alter_ne by exact Hne. eauto.
    + unfold behind in *; cbn [array offset len]. intros Heq.
      destruct (Hb Heq) as [H0 | Hi]; [left; exact H0 | right; lia].
  - set (a := fresh (dom h)).
    assert (Hfresh : a ∉ dom h) by apply is_fresh.
    assert (Hcase : (cap g = 0)%nat \/ a <> array g).
    { destruct (Nat.eq_dec (cap g) 0) as [H0 | Hn0]; [left; exact H0 |].
      right. intros Heq. destruct Hg as [_ Hcap].
      destruct (Hcap ltac:(lia)) as (b & Hb' & _).
      apply Hfresh. rewrite Heq. apply elem_of_dom. eauto. }
    split; [| split].
    + unfold elems. destruct Hcase as [H0 | Hne].
      * destruct Hg as [Hlen _].
        replace (len g) with 0%nat by lia. reflexivity.
      * rewrite lookup_insert_ne by exact Hne. reflexivity.
    + destruct Hg as [Hlen Hcap]. split; [exact Hlen |].
      intros Hc. destruct Hcase as [H0 | Hne]; [lia |].
      rewrite lookup_insert_ne by exact Hne. apply Hcap, Hc.
    + unfold behind; cbn [array offset len]. intros Heq.
      destruct Hcase as [H0 | Hne]; [left; exact H0 | congruence].
Qed.

Lemma registered_lookup (name : string) :
  triggerFnFactories !! name
  = if decide (name = "relativeThreshold") then Some relativeThresholdFactory
    else if decide (name = "absoluteThreshold")
         then Some absoluteThresholdFactory
         else None.
Proof.
  unfold triggerFnFactories.
  destruct (decide (name = "relativeThreshold")) as [-> | Hr].
  - apply lookup_insert_eq.
  - rewrite lookup_insert_ne by congruence.
    destruct (decide (name = "absoluteThreshold")) as [-> | Ha].
    + apply lookup_insert_eq.
    + rewrite lookup_insert_ne by congruence. apply lookup_empty.
Qed.

(** [makeTriggerFn] panics exactly on a registered name with an infinity
    or NaN as parameter, where [decimal.NewFromFloat] panics. *)
Lemma makeTriggerFn_cases (name : string) (params : any) :
  match makeTriggerFn name params with
  | Panic msg =>
      is_Some (triggerFnFactories !! name)
      /\ exists x, params = any_nonfinite x /\ msg = NewFromFloat_panic x
  | Return _ =>
      triggerFnFactories !! name = None
      \/ forall x, params <> any_nonfinite x
  end.
Proof.
  unfold makeTriggerFn. pose proof (registered_lookup name) as Hl.
  destruct (triggerFnFactories !! name) as [fac |]; [| left; reflexivity].
  assert (Hfac : fac = relativeThresholdFactory
                 \/ fac = absoluteThresholdFactory).
  { destruct (decide (name = "relativeThreshold"));
      [left; congruence |].
    destruct (decide (name = "absoluteThreshold"));
      [right; congruence | discriminate]. }
  destruct Hfac as [-> | ->]; destruct params; cbn;
    try (right; discriminate); (split; [eexists; reflexivity | eauto]).
Qed.

Lemma makeTriggerFn_panic_iff (name : string) (params : any) :
  (exists msg, makeTriggerFn name params = Panic msg)
  <-> is_Some (triggerFnFactories !! name)
      /\ exists x, params = any_nonfinite x.
Proof.
  pose proof (makeTriggerFn_cases name params) as Hc. split.
  - intros [msg Hm]. rewrite Hm in Hc. destruct Hc as (Hs & x & Hx & _).
    eauto.
  - intros [[fac Hfac] [x ->]].
    destruct (makeTriggerFn name (any_nonfinite x)) as [r | msg];
      [| eauto].
    destruct Hc as [Hn | Hn]; [congruence | destruct (Hn x eq_refl)].
Qed.

Lemma Scan_range_frame (asMap : list (string * any)) (h : heap)
  (f g : TriggerFns) :
  wf_slice h g -> behind g f ->
  elems (Scan_range growslice asMap h f).1 g = elems h g.
Proof.
  revert h f. induction asMap as [| [name params] rest IH]; intros h f Hg Hb.
  - reflexivity.
  - cbn [Scan_range].
    destruct (makeTriggerFn name params) as [[triggerFn err] | msg];
      [| reflexivity].
    destruct (append_frame h f g triggerFn Hg Hb) as (He & Hw & Hb').
    destruct (append growslice h f triggerFn) as [h' f'] eqn:Happ.
    cbn [fst snd] in *. rewrite (IH h' f' Hw Hb'). exact He.
Qed.

Lemma length_elems (h : heap) (f : TriggerFns) :
  wf_slice h f -> length (elems h f) = len f.
Proof.
  intros [Hlen Hcap]. unfold elems.
  destruct (Nat.eq_dec (len f) 0) as [H0 | Hn0].
  - rewrite H0. reflexivity.
  - destruct (Hcap ltac:(lia)) as (a & Ha & Hla). rewrite Ha. cbn.
    rewrite length_take, length_drop. lia.
Qed.

(** [append] appends, on the header it returns. *)
Lemma append_elems (h : heap) (f : TriggerFns) (x : TriggerFnValue) :
  wf_slice h f ->
  elems (append growslice h f x).1 (append growslice h f x).2
  = elems h f ++ [x]
  /\ wf_slice (append growslice h f x).1 (append growslice h f x).2.
Proof.
  intros Hwf. pose proof (length_elems h f Hwf) as Hl.
  destruct Hwf as [Hlen Hcap]. unfold append.
  destruct (decide (len f < cap f)) as [Hlt | Hge]; cbn [fst snd].
  - destruct (Hcap ltac:(lia)) as (a & Ha & Hla).
    split.
    + unfold elems in *; cbn [array offset len cap].
      rewrite lookup_alter_eq. rewrite Ha in *. cbn [default from_option id fmap option_fmap option_map] in *.
      apply list_eq. intros k.
      destruct (decide (k < len f)) as [Hk | Hk].
      * rewrite lookup_take_lt, lookup_drop by lia.
        rewrite list_lookup_insert_ne by lia.
        rewrite lookup_app_l by lia.
        rewrite lookup_take_lt, lookup_drop by lia. reflexivity.
      * destruct (decide (k = len f)) as [-> | Hk'].
        -- rewrite lookup_take_lt, lookup_drop by lia.
           rewrite list_lookup_insert_eq by lia.
           rewrite lookup_app_r by lia. rewrite Hl, Nat.sub_diag.
           reflexivity.
        -- rewrite lookup_take_ge by lia.
           rewrite lookup_app_r by lia. rewrite Hl.
           destruct (k - len f) as [| n] eqn:E; [lia | reflexivity].
    + split; cbn [array offset len cap]; [lia |].
      intros _. rewrite lookup_alter_eq, Ha. cbn.
      eexists. split; [reflexivity |].
      rewrite length_insert. exact Hla.
  - unfold elems at 1; cbn [array offset len cap].
    rewrite lookup_insert_eq. cbn. rewrite drop_0. split.
    + replace (S (len f)) with (length (elems h f ++ [x]))
        by (rewrite length_app, Hl; cbn; lia).
      set (pad := replicate _ None).
      replace (elems h f ++ x :: pad) with ((elems h f ++ [x]) ++ pad)
        by (rewrite <- app_assoc; reflexivity).
      apply take_app_length.
    + split; cbn [array offset len cap]; [lia |].
      intros _. rewrite lookup_insert_eq. eexists. split; [reflexivity |].
      rewrite length_app, Hl. cbn. rewrite length_replicate. lia.
Qed.

(** The loop ends without a panic exactly on finite parameters, and then
    [parsed] has one result for each entry. *)
Lemma Scan_range_returns (asMap : list (string * any)) (h : heap)
  (f : TriggerFns) :
  (exists f', (Scan_range growslice asMap h f).2 = Return f')
  <-> finite_parameters asMap.
Proof.
  unfold finite_parameters.
  revert h f. induction asMap as [| [name params] rest IH]; intros h f.
  - cbn. split; [constructor | eauto].
  - cbn [Scan_range]. rewrite Forall_cons. cbn [fst snd].
    pose proof (makeTriggerFn_cases name params) as Hc.
    destruct (makeTriggerFn name params) as [[triggerFn err] | msg].
    + destruct (append growslice h f triggerFn) as [h' f'].
      rewrite IH. split; [| intros [_ Hrest]; exact Hrest].
      intros Hrest. split; [| exact Hrest].
      intros x ->. destruct Hc as [Hn | Hn]; [exact Hn |].
      destruct (Hn x eq_refl).
    + cbn [snd]. split; [intros [f' [=]] |].
      intros [Hfin _]. destruct Hc as ([fac Hfac] & x & -> & _).
      rewrite (Hfin x eq_refl) in Hfac. discriminate.
Qed.

Lemma Scan_range_panics (asMap : list (string * any)) (h : heap)
  (f : TriggerFns) :
  ~ finite_parameters asMap ->
  exists msg, (Scan_range growslice asMap h f).2 = Panic msg.
Proof.
  intros Hn. destruct (Scan_range growslice asMap h f).2 as [f' | msg] eqn:E;
    [| eauto].
  exfalso. apply Hn. apply (Scan_range_returns asMap h f). eauto.
Qed.

Lemma parsed_finite (asMap : list (string * any)) :
  finite_parameters asMap ->
  Forall2 (fun e r => exists err, makeTriggerFn e.1 e.2 = Return (r, err))
          asMap (parsed asMap).
Proof.
  unfold finite_parameters.
  induction asMap as [| [name params] rest IH]; intros Hfin; cbn [parsed];
    [constructor |].
  apply Forall_cons in Hfin as [Hx Hrest]. cbn [fst snd] in Hx.
  pose proof (makeTriggerFn_cases name params) as Hc.
  destruct (makeTriggerFn name params) as [[triggerFn err] | msg] eqn:E.
  - constructor; [cbn [fst snd]; rewrite E; eauto | apply IH, Hrest].
  - destruct Hc as ([fac Hfac] & x & -> & _).
    rewrite (Hx x eq_refl) in Hfac. discriminate.
Qed.

(** What the receiver copy holds when the loop ends without a panic. *)
Lemma Scan_range_elems (asMap : list (string * any)) (h : heap)
  (f f' : TriggerFns) :
  wf_slice h f ->
  (Scan_range growslice asMap h f).2 = Return f' ->
  elems (Scan_range growslice asMap h f).1 f' = elems h f ++ parsed asMap
  /\ len f' = (len f + length asMap)%nat.
Proof.
  revert h f. induction asMap as [| [name params] rest IH]; intros h f Hwf.
  - cbn. intros [= <-]. rewrite app_nil_r. split; [reflexivity | lia].
  - cbn [Scan_range parsed].
    destruct (makeTriggerFn name params) as [[triggerFn err] | msg];
      [| discriminate].
    destruct (append_elems h f triggerFn Hwf) as [He Hw].
    assert (Hlen : len (append growslice h f triggerFn).2 = S (len f)).
    { unfold append. destruct (decide (len f < cap f)%nat); reflexivity. }
    destruct (append growslice h f triggerFn) as [h1 f1] eqn:Happ.
    cbn [fst snd] in *. intros Hr.
    destruct (IH h1 f1 Hw Hr) as [Hel Hl]. split.
    + rewrite Hel, He, <- app_assoc. reflexivity.
    + rewrite Hl, Hlen. cbn [length]. lia.
Qed.

(** C9, as far as it holds: for an input that [models.JSON] reads as a JSON
    object, the caller's collection is after the call what it was before;
    [Scan] returns the nil error exactly when no registered name has an
    infinity or NaN as its parameter, and the parsed trigger functions then
    went to the receiver copy, which holds them behind the old elements
    and is not handed back; otherwise [Scan] panics. *)
Theorem Scan_leaves_caller_collection
  (h : heap) (f : TriggerFns) (value : any) (json : JSON)
  (asMap : list (string * any)) :
  wf_slice h f ->
  JSON_Scan value = (json, None) ->
  JSON_IsObject json = true ->
  JSON_AsMap json = (asMap, None) ->
  elems (Scan growslice JSON_Scan JSON_IsObject JSON_AsMap JSON_String
           f value h).1 f
  = elems h f
  /\ ((Scan growslice JSON_Scan JSON_IsObject JSON_AsMap JSON_String
         f value h).2 = Return None
      <-> finite_parameters asMap)
  /\ (finite_parameters asMap ->
      exists (h' : heap) (f' : TriggerFns),
        Scan growslice JSON_Scan JSON_IsObject JSON_AsMap JSON_String f value h
        = (h', Return None)
        /\ Scan_range growslice asMap h f = (h', Return f')
        /\ len f' = (len f + length asMap)%nat
        /\ elems h' f' = elems h f ++ parsed asMap
        /\ Forall2 (fun e r =>
                      exists err, makeTriggerFn e.1 e.2 = Return (r, err))
                   asMap (parsed asMap))
  /\ (~ finite_parameters asMap ->
      exists msg,
        (Scan growslice JSON_Scan JSON_IsObject JSON_AsMap JSON_String
           f value h).2 = Panic msg).
Proof.
  intros Hwf Hscan Hobj Hmap.
  unfold Scan, getTriggerFnMap. rewrite Hscan, Hobj. cbn [negb].
  rewrite Hmap.
  pose proof (Scan_range_frame asMap h f f Hwf ltac:(intros _; right; lia))
    as Hfr.
  pose proof (Scan_range_returns asMap h f) as Hret.
  pose proof (Scan_range_elems asMap h f) as Hel.
  pose proof (Scan_range_panics asMap h f) as Hpan.
  destruct (Scan_range growslice asMap h f) as [h' r] eqn:Hr.
  cbn [fst snd] in *. split; [exact Hfr |]. split; [| split].
  - rewrite <- Hret. destruct r as [f' | msg]; cbn.
    + split; [eauto | reflexivity].
    + split; [discriminate | intros [f' [=]]].
  - intros Hfin. apply Hret in Hfin as [f' ->].
    destruct (Hel f' Hwf eq_refl) as [He Hl].
    exists h', f'. split; [reflexivity |]. split; [reflexivity |].
    split; [exact Hl |]. split; [exact He |].
    apply parsed_finite, Hret. eauto.
  - intros Hn. destruct (Hpan Hn) as [msg ->]. exists msg. reflexivity.
Qed.

End ScanFrame.

(** C9 as stated fails: an object that gives "relativeThreshold" an
    infinity (what reading the number 1e999 yields) is read as a JSON
    object, and [Scan] panics on it instead of returning the nil error. *)
Lemma Scan_panics_on_infinite_parameter :
  let growslice := fun (oldcap needed : nat) => (2 * needed)%nat in
  let asMap := [("relativeThreshold"%string, any_nonfinite PosInf)] in
  let JSON_Scan := fun _ : any => (asMap, @None error_value) in
  let JSON_IsObject := fun _ : list (string * any) => true in
  let JSON_AsMap := fun j : list (string * any) => (j, @None error_value) in
  let JSON_String := fun _ : list (string * any) => "{...}"%string in
  let h : gmap nat (list triggerfns.TriggerFnValue) := {[ 0%nat := [None; None] ]} in
  let f := triggerfns.mkSlice 0 0 1 2 in
  let value := any_string "{...}" in
  JSON_Scan value = (asMap, None)
  /\ JSON_IsObject asMap = true
  /\ JSON_AsMap asMap = (asMap, None)
  /\ (exists msg,
        (triggerfns.Scan growslice JSON_Scan JSON_IsObject JSON_AsMap
           JSON_String f value h).2 = Panic msg)
  /\ (triggerfns.Scan growslice JSON_Scan JSON_IsObject JSON_AsMap
        JSON_String f value h).2 <> Return None.
Proof.
  cbv zeta. split; [reflexivity |]. split; [reflexivity |].
  split; [reflexivity |].
  unfold triggerfns.Scan, triggerfns.getTriggerFnMap.
  cbn [negb triggerfns.Scan_range]. unfold triggerfns.makeTriggerFn.
  rewrite registered_lookup. cbn.
  split; [eexists; reflexivity | discriminate].
Qed.

Lemma Scan_leaves_caller_collection_witness :
  let growslice := fun (oldcap needed : nat) => (2 * needed)%nat in
  let JSON_Scan := fun _ : any =>
    ([("relativeThreshold", any_float64 (mkFloat64 5 (-1)));
      ("absoluteThreshold", any_float64 (mkFloat64 1 (-2)))], None) in
  let JSON_IsObject := fun _ : list (string * any) => true in
  let JSON_AsMap := fun j : list (string * any) => (j, @None error_value) in
  let JSON_String := fun _ : list (string * any) => "{...}"%string in
  let h : gmap nat (list triggerfns.TriggerFnValue) := {[ 0%nat := [None; None] ]} in
  let f := triggerfns.mkSlice 0 0 1 2 in
  exists h',
    triggerfns.Scan growslice JSON_Scan JSON_IsObject JSON_AsMap JSON_String
      f (any_string "{...}") h = (h', Return None)
    /\ triggerfns.elems h' f = triggerfns.elems h f.
Proof.
  cbv zeta.
  edestruct (Scan_leaves_caller_collection
               (fun oldcap needed : nat => (2 * needed)%nat)
               (fun _ : any =>
                  ([("relativeThreshold", any_float64 (mkFloat64 5 (-1)));
                    ("absoluteThreshold", any_float64 (mkFloat64 1 (-2)))],
                   None))
               (fun _ : list (string * any) => true)
               (fun j : list (string * any) => (j, @None error_value))
               (fun _ : list (string * any) => "{...}"%string)
               {[ 0%nat := [None; None] ]}
               (triggerfns.mkSlice 0 0 1 2)
               (any_string "{...}"))
    as (He & _ & Hfin & _).
  - split; cbn; [lia |]. intros _. eexists. split; [reflexivity | cbn; lia].
  - reflexivity.
  - reflexivity.
  - reflexivity.
  - destruct Hfin as (h' & f' & Hs & _).
    { repeat constructor; intros x [=]. }
    exists h'. split; [exact Hs |]. rewrite Hs in He. exact He.
Defined.

(** ** [searchQuery] *)

Section SearchQueryFacts.

Import explorer.

Context {Location : Type}.
Variable toString : Location -> string.
Variable new_URL_searchParams : string -> exec (list (string * string)).

Lemma get_absent (name : string) (params : list (string * string)) :
  (forall w, (name, w) ∉ params) -> URLSearchParams_get name params = None.
Proof.
  induction params as [| [k v] rest IH]; intros Habs; [reflexivity |].
  cbn. destruct (String.eqb_spec k name) as [-> | Hne].
  - exfalso. apply (Habs v). left.
  - apply IH. intros w Hw. apply (Habs w). right. exact Hw.
Qed.

Lemma get_has_param (name : string) (params : list (string * string))
  (v : string) :
  has_param name params v -> URLSearchParams_get name params = Some v.
Proof.
  intros (pre & post & -> & Hpre).
  induction pre as [| [k w] pre IH]; cbn.
  - rewrite String.eqb_refl. reflexivity.
  - destruct (String.eqb_spec k name) as [-> | Hne].
    + exfalso. apply (Hpre w). left.
    + apply IH. intros u Hu. apply (Hpre u). right. exact Hu.
Qed.

(** C10: [searchQuery] returns the value of the URL's 'search' parameter
    when it is present and not empty, and undefined when the parameter is
    absent and when its value is the empty string. *)
Theorem searchQuery_spec (location : Location)
  (params : list (string * string)) :
  new_URL_searchParams (toString location) = Return params ->
  (forall v, has_param "search" params v -> v <> EmptyString ->
             searchQuery toString new_URL_searchParams location
             = Return (Some v))
  /\ ((forall w, ("search"%string, w) ∉ params) ->
      searchQuery toString new_URL_searchParams location = Return None)
  /\ (has_param "search" params EmptyString ->
      searchQuery toString new_URL_searchParams location = Return None).
Proof.
  intros Hurl. unfold searchQuery. rewrite Hurl.
  cbn [mbind exec_mbind exec_bind]. repeat split.
  - intros v Hv Hne. rewrite (get_has_param _ _ _ Hv).
    destruct v; [contradiction | reflexivity].
  - intros Habs. rewrite (get_absent _ _ Habs). reflexivity.
  - intros Hv. rewrite (get_has_param _ _ _ Hv). reflexivity.
Qed.

End SearchQueryFacts.

Lemma searchQuery_spec_witness :
  let toString := fun l : string => l in
  let new_URL := fun _ : string =>
    Return [("page"%string, "2"%string); ("search"%string, "jobB"%string);
            ("search"%string, EmptyString)] in
  explorer.searchQuery toString new_URL "http://localhost/?page=2&search=jobB&search="%string
  = Return (Some "jobB"%string).
Proof.
  cbv zeta.
  refine (proj1 (searchQuery_spec (fun l : string => l)
                   (fun _ : string =>
                      Return [("page"%string, "2"%string);
                              ("search"%string, "jobB"%string);
                              ("search"%string, EmptyString)])
                   "http://localhost/?page=2&search=jobB&search="%string
                   _ eq_refl) "jobB"%string _ _).
  - exists [("page"%string, "2"%string)], [("search"%string, EmptyString)].
    split; [reflexivity |]. intros w Hw.
    apply list_elem_of_singleton in Hw. discriminate.
  - discriminate.
Defined.

(** ** Job Run State Machine: idempotent creation *)

Section RunCreation.

Import engine.
Local Open Scope nat_scope.

Lemma find_by_key_None (key : string) (rs : list RunRow) :
  find_by_key key rs = None <-> key ∉ idempotencyKey <$> rs.
Proof.
  induction rs as [| r rest IH]; cbn.
  - split; [intros _; apply not_elem_of_nil | reflexivity].
  - destruct (String.eqb_spec (idempotencyKey r) key) as [Heq | Hne].
    + split; [discriminate |]. intros Hn. exfalso. apply Hn. rewrite Heq. left.
    + rewrite IH, not_elem_of_cons. split; [auto | tauto].
Qed.

Lemma count_absent (key : string) (rs : list RunRow) :
  key ∉ idempotencyKey <$> rs ->
  filter (fun r => idempotencyKey r = key) rs = [].
Proof.
  induction rs as [| r rest IH]; intros Hn; [reflexivity |].
  cbn in Hn. apply not_elem_of_cons in Hn as [Hne Hrest].
  rewrite filter_cons_False by congruence. apply IH, Hrest.
Qed.

Lemma count_unique (key : string) (rs : list RunRow) (r : Run) :
  NoDup (idempotencyKey <$> rs) ->
  find_by_key key rs = Some r ->
  length (filter (fun x => idempotencyKey x = key) rs) = 1.
Proof.
  induction rs as [| x rest IH]; intros Hnd Hf; [discriminate |].
  cbn in Hnd. apply NoDup_cons in Hnd as [Hx Hnd]. cbn in Hf.
  destruct (String.eqb_spec (idempotencyKey x) key) as [Heq | Hne].
  - rewrite filter_cons_True by exact Heq. cbn.
    rewrite count_absent; [reflexivity |]. rewrite <- Heq. exact Hx.
  - rewrite filter_cons_False by exact Hne. apply IH; assumption.
Qed.

Lemma find_by_key_snoc (key : string) (rs : list RunRow) (row : RunRow) :
  find_by_key key rs = None ->
  idempotencyKey row = key ->
  find_by_key key (rs ++ [row]) = Some (run row).
Proof.
  intros Hn Hk. induction rs as [| x rest IH]; cbn in *.
  - rewrite Hk, String.eqb_refl. reflexivity.
  - destruct (String.eqb (idempotencyKey x) key); [discriminate |].
    apply IH, Hn.
Qed.

(** A create on a store that respects the constraint leaves one Run under
    the key, findable, and the constraint respected. *)
Lemma createRun_persists (job : Job) (p key : string) (now : Z) (st : Store) :
  unique_keys st ->
  let '(st', r) := createRun job p key now st in
  unique_keys st'
  /\ find_by_key key (rows st') = Some r
  /\ run_count key st' = 1.
Proof.
  intros Hu. unfold createRun, insert_unique; cbn [idempotencyKey].
  destruct (find_by_key key (rows st)) as [existing |] eqn:Hf.
  - split; [exact Hu |]. split; [exact Hf |].
    apply (count_unique key (rows st) existing Hu Hf).
  - pose proof (proj1 (find_by_key_None key (rows st)) Hf) as Hn.
    unfold unique_keys, run_count; cbn [rows]. split; [| split].
    + rewrite fmap_app. apply NoDup_app. split; [exact Hu |].
      split; [| apply NoDup_singleton].
      intros k Hk Hk'. cbn in Hk'. apply list_elem_of_singleton in Hk'.
      subst k. contradiction.
    + apply (find_by_key_snoc key (rows st)
               (mkRunRow key p
                  (mkRun (nextRunId st) (job_id job) Unstarted [] now None))
               Hf).
      reflexivity.
    + rewrite filter_app, (count_absent key (rows st) Hn).
      rewrite filter_cons_True by reflexivity. reflexivity.
Qed.

(** C1: two calls of createRun with the same idempotency key leave exactly
    one persisted Run under that key; the second call returns the Run of
    the first and persists nothing. *)
Theorem createRun_idempotent
  (job1 job2 : Job) (p1 p2 key : string) (now1 now2 : Z) (st : Store) :
  unique_keys st ->
  let '(st1, r1) := createRun job1 p1 key now1 st in
  let '(st2, r2) := createRun job2 p2 key now2 st1 in
  r2 = r1 /\ st2 = st1 /\ run_count key st2 = 1
  /\ find_by_key key (rows st2) = Some r1.
Proof.
  intros Hu. pose proof (createRun_persists job1 p1 key now1 st Hu) as H1.
  destruct (createRun job1 p1 key now1 st) as [st1 r1].
  destruct H1 as (Hu1 & Hf1 & Hc1).
  unfold createRun, insert_unique; cbn [idempotencyKey]. rewrite Hf1.
  repeat split; assumption.
Qed.

End RunCreation.

Lemma createRun_idempotent_witness :
  let job := engine.mkJob 1 "runlog" ["httpget"; "multiply"; "ethtx"] in
  let st := engine.mkStore [] 0 in
  let '(st1, r1) := engine.createRun job "payload" "logX:block100:idx3" 10 st in
  let '(st2, r2) := engine.createRun job "payload" "logX:block100:idx3" 11 st1 in
  r2 = r1 /\ st2 = st1 /\ engine.run_count "logX:block100:idx3" st2 = 1%nat
  /\ engine.find_by_key "logX:block100:idx3" (engine.rows st2) = Some r1.
Proof.
  exact (createRun_idempotent
           (engine.mkJob 1 "runlog" ["httpget"; "multiply"; "ethtx"])
           (engine.mkJob 1 "runlog" ["httpget"; "multiply"; "ethtx"])
           "payload" "payload" "logX:block100:idx3" 10 11
           (engine.mkStore [] 0) (NoDup_nil_2 (A := string))).
Defined.

(** ** Head Tracker: the chain view *)

Section ChainView.

Import engine.
Local Open Scope nat_scope.

Variable getHeadByHash : Hash -> option Head.
Hypothesis adapter_ok : adapter_sound getHeadByHash.

Lemma linked_cons (a : Head) (v : list Head) :
  linked (a :: v) <-> (forall b, head v = Some b -> parentHash a = hash b)
                      /\ linked v.
Proof.
  cbn [linked]. destruct v as [| b rest]; cbn [head].
  - split; [intros [_ H]; split; [discriminate | exact H] | tauto].
  - split.
    + intros [H1 H2]. split; [| exact H2]. intros b' [= <-]. exact H1.
    + intros [H1 H2]. split; [apply H1; reflexivity | exact H2].
Qed.

Lemma linked_take (n : nat) (v : list Head) : linked v -> linked (take n v).
Proof.
  revert n. induction v as [| a rest IH]; intros n Hl.
  - rewrite take_nil. exact I.
  - destruct n as [| n]; [exact I |]. cbn [take].
    apply linked_cons in Hl as [Hh Hr]. apply linked_cons.
    split; [| apply IH, Hr].
    intros b Hb. apply Hh.
    destruct rest as [| c rest'], n as [| n]; cbn in Hb; try discriminate.
    exact Hb.
Qed.

Lemma linked_drop (n : nat) (v : list Head) : linked v -> linked (drop n v).
Proof.
  revert n. induction v as [| a rest IH]; intros n Hl.
  - rewrite drop_nil. exact I.
  - destruct n as [| n]; [exact Hl |]. cbn [drop].
    apply IH. apply linked_cons in Hl. tauto.
Qed.

Lemma linked_app (xs ys : list Head) :
  linked xs -> linked ys ->
  (forall l y, last xs = Some l -> head ys = Some y -> parentHash l = hash y) ->
  linked (xs ++ ys).
Proof.
  induction xs as [| a rest IH]; intros Hx Hy Hj; [exact Hy |].
  cbn [app]. apply linked_cons in Hx as [Hh Hr]. apply linked_cons. split.
  - intros b Hb. destruct rest as [| c rest'].
    + cbn in Hb. apply (Hj a b); [reflexivity | exact Hb].
    + cbn in Hb. apply Hh. exact Hb.
  - apply IH; [exact Hr | exact Hy |].
    intros l y Hl Hy'. apply (Hj l y); [| exact Hy'].
    destruct rest as [| c rest']; [discriminate | exact Hl].
Qed.

Lemma index_of_Some (h : Hash) (v : list Head) (i : nat) :
  index_of h v = Some i -> exists x, v !! i = Some x /\ hash x = h.
Proof.
  revert i. induction v as [| a rest IH]; intros i Hi; [discriminate |].
  cbn in Hi. destruct (decide (hash a = h)) as [Heq | Hne].
  - injection Hi as <-. exists a. split; [reflexivity | exact Heq].
  - destruct (index_of h rest) as [j |] eqn:Hj; [| discriminate].
    injection Hi as <-. apply (IH j eq_refl).
Qed.

(** The backward walk returns a linked branch that starts at the head it
    was given, consists of that head and fetched ancestors, and ends with a
    child of the view entry at the returned position. *)
Lemma walk_back_spec (fuel : nat) (v : list Head) (current : Head)
  (branch : list Head) (i : nat) :
  walk_back getHeadByHash fuel v current = Some (branch, i) ->
  head branch = Some current
  /\ linked branch
  /\ (forall x, x ∈ branch ->
                x = current \/ exists h, getHeadByHash h = Some x)
  /\ exists l anc, last branch = Some l /\ v !! i = Some anc
                   /\ parentHash l = hash anc.
Proof.
  revert current branch i.
  induction fuel as [| fuel IH]; intros current branch i Hw; cbn in Hw.
  - destruct (index_of (parentHash current) v) as [j |] eqn:Hj;
      [| discriminate].
    injection Hw as <- <-.
    destruct (index_of_Some _ _ _ Hj) as (anc & Hanc & Hh).
    split; [reflexivity |]. split; [cbn; tauto |]. split.
    + intros x Hx. apply list_elem_of_singleton in Hx. left. exact Hx.
    + exists current, anc. split; [reflexivity |]. split; [exact Hanc |].
      symmetry. exact Hh.
  - destruct (index_of (parentHash current) v) as [j |] eqn:Hj.
    + injection Hw as <- <-.
      destruct (index_of_Some _ _ _ Hj) as (anc & Hanc & Hh).
      split; [reflexivity |]. split; [cbn; tauto |]. split.
      * intros x Hx. apply list_elem_of_singleton in Hx. left. exact Hx.
      * exists current, anc. split; [reflexivity |]. split; [exact Hanc |].
        symmetry. exact Hh.
    + destruct (getHeadByHash (parentHash current)) as [p |] eqn:Hp;
        [| discriminate].
      cbn in Hw.
      destruct (walk_back getHeadByHash fuel v p) as [[br k] |] eqn:Hrec;
        [| discriminate].
      cbn in Hw. injection Hw as <- <-.
      destruct (IH p br k Hrec) as (Hhd & Hlk & Hin & l & anc & Hl & Ha & Hpa).
      split; [reflexivity |]. split; [| split].
      * apply linked_cons. split; [| exact Hlk].
        intros b Hb. rewrite Hhd in Hb. injection Hb as <-.
        symmetry. apply (adapter_ok _ _ Hp).
      * intros x Hx. apply elem_of_cons in Hx as [-> | Hx]; [left; reflexivity |].
        right. destruct (Hin x Hx) as [-> | Hex]; [eauto | exact Hex].
      * exists l, anc. split; [| split; assumption].
        destruct br as [| b br']; [discriminate | exact Hl].
Qed.

(** After any [onNewHead] the view is a single linked chain. *)
Lemma onNewHead_linked (t : HeadTracker) (head : Head) :
  linked (view t) ->
  linked (view (onNewHead getHeadByHash t head).1).
Proof.
  intros Hl. unfold onNewHead.
  destruct (view t) as [| top rest] eqn:Hv; cbn [fst view].
  - unfold prune. apply linked_take. cbn. tauto.
  - destruct (decide (parentHash head = hash top)) as [Hp | Hp]; cbn [fst view].
    + unfold prune. apply linked_take. apply linked_cons.
      split; [| exact Hl]. intros b [= <-]. exact Hp.
    + destruct (walk_back getHeadByHash (maxDepth t) (top :: rest) head)
        as [[branch i] |] eqn:Hw; cbn [fst view].
      * destruct (walk_back_spec _ _ _ _ _ Hw)
          as (_ & Hlb & _ & l & anc & Hlast & Hanc & Hpa).
        unfold prune. apply linked_take. apply linked_app.
        -- exact Hlb.
        -- apply linked_drop. exact Hl.
        -- intros l' y Hl' Hy. rewrite Hlast in Hl'. injection Hl' as <-.
           rewrite head_lookup, lookup_drop, Nat.add_0_r, Hanc in Hy.
           injection Hy as <-. exact Hpa.
      * rewrite Hv. exact Hl.
Qed.

(** The heads of the view after [onNewHead] are heads of the old view, the
    new head, or heads fetched from the adapter. *)
Lemma onNewHead_heads (t : HeadTracker) (head x : Head) :
  x ∈ view (onNewHead getHeadByHash t head).1 ->
  x ∈ view t \/ x = head \/ exists h, getHeadByHash h = Some x.
Proof.
  unfold onNewHead.
  destruct (view t) as [| top rest] eqn:Hv; cbn [fst view].
  - intros Hx. apply (subseteq_take _ _ x) in Hx.
    apply list_elem_of_singleton in Hx. right. left. exact Hx.
  - destruct (decide (parentHash head = hash top)) as [Hp | Hp]; cbn [fst view].
    + intros Hx. apply (subseteq_take _ _ x) in Hx.
      apply elem_of_cons in Hx as [-> | Hx]; [right; left; reflexivity |].
      left. exact Hx.
    + destruct (walk_back getHeadByHash (maxDepth t) (top :: rest) head)
        as [[branch i] |] eqn:Hw; cbn [fst view].
      * destruct (walk_back_spec _ _ _ _ _ Hw) as (_ & _ & Hin & _).
        intros Hx. apply (subseteq_take _ _ x) in Hx.
        apply elem_of_app in Hx as [Hx | Hx].
        -- right. exact (Hin x Hx).
        -- left. apply (subseteq_drop _ _ x) in Hx. exact Hx.
      * rewrite Hv. intros Hx. left. exact Hx.
Qed.

(** Heads that satisfy a predicate closed under delivery and fetching stay
    so in the view. *)
Lemma onNewHead_Forall (P : Head -> Prop) (t : HeadTracker) (head : Head) :
  (forall h x, getHeadByHash h = Some x -> P x) ->
  P head ->
  Forall P (view t) ->
  Forall P (view (onNewHead getHeadByHash t head).1).
Proof.
  intros Hfetch Hhead Hview. apply Forall_forall. intros x Hx.
  destruct (onNewHead_heads t head x Hx) as [Hold | [-> | [h Hh]]].
  - rewrite Forall_forall in Hview. apply Hview, Hold.
  - exact Hhead.
  - apply (Hfetch h x Hh).
Qed.

(** Appending a child of the top puts every entry one deeper: its
    confirmation count advances by one. *)
Lemma onNewHead_append_advances (t : HeadTracker) (head top : Head)
  (rest : list Head) (h : Hash) (d : nat) :
  view t = top :: rest ->
  parentHash head = hash top ->
  hash head <> h ->
  confirmationsOf t h = Some d ->
  d < maxDepth t ->
  confirmationsOf (onNewHead getHeadByHash t head).1 h = Some (S d).
Proof.
  intros Hv Hp Hne Hc Hd. unfold onNewHead. rewrite Hv.
  rewrite decide_True by exact Hp. cbn [fst]. unfold confirmationsOf in *.
  cbn [view]. rewrite Hv in Hc. unfold prune. cbn [take index_of].
  rewrite decide_False by exact Hne.
  assert (Hk : forall (v : list Head) (k n : nat),
             index_of h v = Some k -> k < n -> index_of h (take n v) = Some k).
  { induction v as [| a v' IH]; intros k n Hi Hlt; [discriminate |].
    destruct n as [| n]; [lia |]. cbn in *.
    destruct (decide (hash a = h)); [exact Hi |].
    destruct (index_of h v') as [j |] eqn:Hj; [| discriminate].
    injection Hi as <-. rewrite (IH j n eq_refl) by lia. reflexivity. }
  rewrite (Hk (top :: rest) d (maxDepth t) Hc Hd). reflexivity.
Qed.



(** *** Reorg reconciliation *)

Lemma filter_none {A : Type} (Q : A -> Prop) `{!forall x, Decision (Q x)}
  (l : list A) :
  (forall x, x ∈ l -> ~ Q x) -> filter Q l = [].
Proof.
  induction l as [| a rest IH]; intros Hq; [reflexivity |].
  rewrite filter_cons_False by (apply Hq; left).
  apply IH. intros x Hx. apply Hq. right. exact Hx.
Qed.

Lemma elem_of_confirmed_events (old new : list Head) (thr : list nat)
  (e : Event) :
  e ∈ confirmed_events old new thr ->
  exists d x, new !! d = Some x /\ crossed old thr d x = true
              /\ e = HeadConfirmed (hash x) d.
Proof.
  unfold confirmed_events. intros He.
  apply list_elem_of_omap in He as ([d x] & Hin & Hf).
  apply list_elem_of_lookup in Hin as [k Hk].
  rewrite list_lookup_imap in Hk.
  destruct (new !! k) as [y |] eqn:Hy; [| discriminate].
  cbn in Hk. injection Hk as <- <-.
  exists k, y. destruct (crossed old thr k y); [| discriminate].
  injection Hf as <-. split; [exact Hy |]. split; reflexivity.
Qed.

Lemma confirmed_events_no_reorg (old new : list Head) (thr : list nat) :
  filter (fun e => is_Reorg e) (confirmed_events old new thr) = [].
Proof.
  apply filter_none. intros e He.
  destruct (elem_of_confirmed_events _ _ _ _ He) as (d & x & _ & _ & ->).
  cbn. tauto.
Qed.

(** C3: with H1 <- H2 <- H3 at the top of the view, delivering the competing
    branch H2' (child of H1), then H3' (child of H2'), raises exactly one
    Reorg event; its common ancestor is H1 and its discarded hashes are
    those of H2 and H3. *)
Theorem reorg_on_competing_branch
  (t : HeadTracker) (H1 H2 H3 H2' H3' : Head) (older : list Head) :
  view t = H3 :: H2 :: H1 :: older ->
  parentHash H3 = hash H2 ->
  parentHash H2 = hash H1 ->
  parentHash H2' = hash H1 ->
  parentHash H3' = hash H2' ->
  hash H2 <> hash H1 ->
  hash H3 <> hash H1 ->
  let '(t1, events1) := onNewHead getHeadByHash t H2' in
  let '(t2, events2) := onNewHead getHeadByHash t1 H3' in
  filter (fun e => is_Reorg e) (events1 ++ events2)
  = [Reorg H1 [hash H3; hash H2] [hash H2']]
  /\ (list_to_set [hash H3; hash H2] : gset Hash) = {[ hash H2; hash H3 ]}
  /\ view t2 = prune (maxDepth t) (H3' :: prune (maxDepth t) (H2' :: H1 :: older)).
Proof.
  intros Hv _ _ Hp2 Hp3 Hn2 Hn3.
  unfold onNewHead at 1. rewrite Hv.
  destruct (decide (parentHash H2' = hash H3)) as [Heq | _]; [congruence |].
  assert (Hw : walk_back getHeadByHash (maxDepth t) (H3 :: H2 :: H1 :: older) H2'
               = Some ([H2'], 2)).
  { destruct (maxDepth t); cbn; rewrite Hp2;
      rewrite decide_False by exact Hn3; rewrite decide_False by exact Hn2;
      rewrite decide_True by reflexivity; reflexivity. }
  rewrite Hw. cbn [take drop fmap list_fmap app].
  unfold onNewHead. cbn [view maxDepth thresholds].
  change (prune (maxDepth t) (H2' :: H1 :: older))
    with (H2' :: take (maxDepth t) (H1 :: older)).
  cbv beta iota.
  rewrite decide_True by exact Hp3.
  rewrite filter_cons_True by exact I.
  rewrite filter_app, !confirmed_events_no_reorg.
  split; [reflexivity |]. split; [| reflexivity].
  cbn [list_to_set]. rewrite union_empty_r_L. apply union_comm_L.
Qed.

(** The same reorg when only H3' is delivered and H2' is fetched from the
    adapter during the backward walk. *)
Lemma reorg_on_fetched_branch
  (t : HeadTracker) (H1 H2 H3 H2' H3' : Head) (older : list Head) :
  view t = H3 :: H2 :: H1 :: older ->
  0 < maxDepth t ->
  parentHash H2' = hash H1 ->
  parentHash H3' = hash H2' ->
  hash H2 <> hash H1 ->
  hash H3 <> hash H1 ->
  index_of (hash H2') (view t) = None ->
  getHeadByHash (hash H2') = Some H2' ->
  filter (fun e => is_Reorg e) (onNewHead getHeadByHash t H3').2
  = [Reorg H1 [hash H3; hash H2] [hash H3'; hash H2']].
Proof.
  intros Hv Hd Hp2 Hp3 Hn2 Hn3 Hnew Hfetch.
  unfold onNewHead. rewrite Hv in *.
  assert (Htop : parentHash H3' <> hash H3).
  { intros Heq. rewrite Hp3 in Heq. cbn in Hnew.
    rewrite decide_True in Hnew by (symmetry; exact Heq). discriminate. }
  rewrite decide_False by exact Htop.
  assert (Hw : walk_back getHeadByHash (maxDepth t) (H3 :: H2 :: H1 :: older) H3'
               = Some ([H3'; H2'], 2)).
  { destruct (maxDepth t) as [| fuel]; [lia |].
    cbn [walk_back]. rewrite Hp3, Hnew, Hfetch. cbn [mbind option_bind].
    assert (Hi : index_of (parentHash H2') (H3 :: H2 :: H1 :: older) = Some 2).
    { cbn. rewrite Hp2. rewrite decide_False by exact Hn3.
      rewrite decide_False by exact Hn2.
      rewrite decide_True by reflexivity. reflexivity. }
    destruct fuel; cbn [walk_back]; rewrite Hi; reflexivity. }
  rewrite Hw. cbn [snd take drop fmap list_fmap].
  rewrite filter_app, confirmed_events_no_reorg.
  rewrite filter_cons_True by exact I. reflexivity.
Qed.

End ChainView.

(** ** Transaction Confirmation Coordinator *)

Section Confirmation.

Import engine.
Local Open Scope nat_scope.

Variable getHeadByHash : Hash -> option Head.
Hypothesis adapter_ok : adapter_sound getHeadByHash.

(** A [HeadConfirmed] event of [onNewHead] names the head at that depth of
    the new view, whose top is the head just delivered. *)
Lemma onNewHead_confirmed_event (t : HeadTracker) (head : Head)
  (h : Hash) (d : nat) :
  HeadConfirmed h d ∈ (onNewHead getHeadByHash t head).2 ->
  exists x, view (onNewHead getHeadByHash t head).1 !! d = Some x
            /\ hash x = h
            /\ view (onNewHead getHeadByHash t head).1 !! 0 = Some head.
Proof.
  unfold onNewHead.
  destruct (view t) as [| top rest] eqn:Hv; cbn [fst snd view].
  - intros He.
    destruct (elem_of_confirmed_events _ _ _ _ He) as (k & x & Hk & _ & Heq).
    injection Heq as -> ->. exists x. split; [exact Hk |].
    split; reflexivity.
  - destruct (decide (parentHash head = hash top)) as [Hp | Hp];
      cbn [fst snd view].
    + intros He.
      destruct (elem_of_confirmed_events _ _ _ _ He) as (k & x & Hk & _ & Heq).
      injection Heq as -> ->. exists x. split; [exact Hk |].
      split; reflexivity.
    + destruct (walk_back getHeadByHash (maxDepth t) (top :: rest) head)
        as [[branch i] |] eqn:Hw; cbn [fst snd view].
      * intros He. apply elem_of_app in He as [He | He].
        { destruct (take i (top :: rest)) as [| ? ?];
            [apply elem_of_nil in He; contradiction |].
          destruct (drop i (top :: rest)) as [| ? ?];
            [apply elem_of_nil in He; contradiction |].
          apply list_elem_of_singleton in He. discriminate. }
        destruct (elem_of_confirmed_events _ _ _ _ He)
          as (k & x & Hk & _ & Heq).
        injection Heq as -> ->. exists x. split; [exact Hk |].
        split; [reflexivity |].
        destruct (walk_back_spec getHeadByHash adapter_ok _ _ _ _ _ Hw)
          as (Hhd & _).
        destruct branch as [| b br]; [discriminate |].
        injection Hhd as ->. reflexivity.
      * intros He. apply elem_of_nil in He. contradiction.
Qed.

(** Along a linked view, the top is reached from the entry at depth [d] by
    [d] parent links, and its number is [d] above. *)
Lemma linked_descends (P held : Head -> Prop) (v : list Head) (a x s : Head)
  (d : nat) :
  well_numbered P -> Forall P v -> P s ->
  Forall held v ->
  linked v ->
  v !! 0 = Some a -> v !! d = Some x -> hash x = hash s -> 0 < d ->
  descends held d a s /\ number a = (number s + Z.of_nat d)%Z.
Proof.
  intros Hwn HP Hs Hheld. revert a d.
  induction v as [| a0 rest IH]; intros a d Hl H0 Hd Hx Hpos;
    [discriminate |].
  cbn in H0. injection H0 as ->.
  destruct d as [| d]; [lia |]. cbn in Hd.
  apply linked_cons in Hl as [Hh Hr].
  apply Forall_cons in HP as [Pa HPr].
  apply Forall_cons in Hheld as [Ha Hheldr].
  destruct rest as [| b rest']; [discriminate |].
  specialize (Hh b eq_refl).
  destruct d as [| d].
  - cbn in Hd. injection Hd as ->. split.
    + apply descends_child; [exact Ha | congruence].
    + rewrite (Hwn a s Pa Hs) by congruence. lia.
  - apply Forall_cons in HPr as HPr'. destruct HPr' as [Pb _].
    destruct (IH HPr Hheldr b (S d) Hr eq_refl Hd Hx ltac:(lia))
      as [Hdesc Hnum].
    split.
    + apply (descends_more held _ a b s Ha Hh Hdesc).
    + rewrite (Hwn a b Pa Pb Hh), Hnum. lia.
Qed.

Lemma react_fields (e : Event) (tx : PendingTransaction) :
  submittedAtHead (react e tx) = submittedAtHead tx
  /\ requiredConfirmations (react e tx) = requiredConfirmations tx.
Proof.
  destruct e as [h d | anc dh nh]; cbn [react];
    unfold onHeadConfirmed, onReorg;
    destruct (tx_status tx);
    repeat match goal with
           | |- context [if ?c then _ else _] => destruct c
           end; split; reflexivity.
Qed.

(** A transaction becomes Confirmed only on a [HeadConfirmed] event for its
    head at a depth of at least its required confirmations. *)
Lemma react_confirms (e : Event) (tx : PendingTransaction) :
  tx_status tx <> Confirmed ->
  tx_status (react e tx) = Confirmed ->
  exists d, e = HeadConfirmed (hash (submittedAtHead tx)) d
            /\ requiredConfirmations tx <= d.
Proof.
  intros Hn Hc. destruct e as [h d | anc dh nh]; cbn [react] in Hc.
  - unfold onHeadConfirmed in Hc.
    destruct (tx_status tx) eqn:Hs; try contradiction; try congruence.
    destruct (bool_decide (hash (submittedAtHead tx) = h)) eqn:Hh;
      [| cbn in Hc; congruence].
    destruct (bool_decide (requiredConfirmations tx <= d)) eqn:Hd;
      [| cbn in Hc; congruence].
    apply bool_decide_eq_true in Hh, Hd. subst h.
    exists d. split; [reflexivity | exact Hd].
  - unfold onReorg in Hc.
    destruct (tx_status tx) eqn:Hs; try contradiction; try congruence;
      destruct (bool_decide (hash (submittedAtHead tx) ∈ dh));
      cbn in Hc; congruence.
Qed.

Lemma foldl_react_lookup (events : list Event)
  (m : gmap nat PendingTransaction) (id : nat) :
  foldl handle_event m events !! id
  = (fun tx => foldl (fun tx e => react e tx) tx events) <$> m !! id.
Proof.
  revert m. induction events as [| e rest IH]; intros m.
  - cbn. destruct (m !! id); reflexivity.
  - cbn [foldl]. rewrite IH. unfold handle_event. rewrite lookup_fmap.
    destruct (m !! id); reflexivity.
Qed.

Lemma foldl_react_confirms (events : list Event) (tx : PendingTransaction) :
  tx_status tx <> Confirmed ->
  tx_status (foldl (fun tx e => react e tx) tx events) = Confirmed ->
  exists d, HeadConfirmed (hash (submittedAtHead tx)) d ∈ events
            /\ requiredConfirmations tx <= d.
Proof.
  revert tx. induction events as [| e rest IH]; intros tx Hn Hc.
  - cbn in Hc. contradiction.
  - cbn [foldl] in Hc.
    destruct (decide (tx_status (react e tx) = Confirmed)) as [Hce | Hne].
    + destruct (react_confirms e tx Hn Hce) as (d & -> & Hd).
      exists d. split; [left | exact Hd].
    + destruct (IH (react e tx) Hne Hc) as (d & Hin & Hd).
      destruct (react_fields e tx) as [Hf1 Hf2]. rewrite Hf1, Hf2 in *.
      exists d. split; [right; exact Hin | exact Hd].
Qed.

Lemma foldl_react_fields (events : list Event) (tx : PendingTransaction) :
  submittedAtHead (foldl (fun tx e => react e tx) tx events)
  = submittedAtHead tx
  /\ requiredConfirmations (foldl (fun tx e => react e tx) tx events)
     = requiredConfirmations tx.
Proof.
  revert tx. induction events as [| e rest IH]; intros tx; [split; reflexivity |].
  cbn [foldl]. destruct (IH (react e tx)) as [H1 H2].
  destruct (react_fields e tx) as [H3 H4]. split; congruence.
Qed.

(** Over any sequence of head events: a transaction that is not Confirmed
    at the start and is Confirmed at the end was confirmed by one of the
    delivered heads, which descends from its head by at least the required
    number of parent links, through heads the tracker holds once that head
    is delivered. *)
Lemma confirmation_needs_depth (P : Head -> Prop) (heads : list Head)
  (s : System) (id : nat) (tx : PendingTransaction) :
  well_numbered P ->
  (forall h x, getHeadByHash h = Some x -> P x) ->
  Forall P heads ->
  Forall P (view (tracker s)) ->
  P (submittedAtHead tx) ->
  linked (view (tracker s)) ->
  txs s !! id = Some tx ->
  tx_status tx <> Confirmed ->
  0 < requiredConfirmations tx ->
  status_of (run_heads getHeadByHash s heads) id = Some Confirmed ->
  exists j hd k x,
    heads !! j = Some hd
    /\ requiredConfirmations tx <= k
    /\ view_after getHeadByHash s heads j !! 0 = Some hd
    /\ view_after getHeadByHash s heads j !! k = Some x
    /\ hash x = hash (submittedAtHead tx)
    /\ descends (fun y => y ∈ view_after getHeadByHash s heads j)
         k hd (submittedAtHead tx)
    /\ number hd = (number (submittedAtHead tx) + Z.of_nat k)%Z.
Proof.
  intros Hwn Hfetch Hheads. revert s tx Hheads.
  induction heads as [| head rest IH];
    intros s tx Hheads HPv HPs Hl Htx Hn Hr Hc.
  - unfold status_of in Hc. cbn in Hc. rewrite Htx in Hc. cbn in Hc.
    congruence.
  - apply Forall_cons in Hheads as [Phead Hrest].
    unfold run_heads in Hc. cbn [foldl] in Hc.
    fold (run_heads getHeadByHash (deliver getHeadByHash s head) rest) in Hc.
    pose proof (onNewHead_linked getHeadByHash adapter_ok (tracker s) head Hl)
      as Hl'.
    pose proof (onNewHead_Forall getHeadByHash adapter_ok P (tracker s) head
                  Hfetch Phead HPv) as HPv'.
    pose proof (onNewHead_confirmed_event (tracker s) head) as Hev.
    unfold deliver in Hc.
    destruct (onNewHead getHeadByHash (tracker s) head) as [t' events] eqn:Hon.
    cbn [fst snd] in *.
    set (tx' := foldl (fun tx e => react e tx) tx events).
    assert (Htx' : foldl handle_event (txs s) events !! id = Some tx').
    { rewrite foldl_react_lookup, Htx. reflexivity. }
    destruct (foldl_react_fields events tx) as [Hf1 Hf2]. fold tx' in Hf1, Hf2.
    destruct (decide (tx_status tx' = Confirmed)) as [Hnow | Hlater].
    + destruct (foldl_react_confirms events tx Hn Hnow) as (d & Hin & Hd).
      destruct (Hev _ _ Hin) as (x & Hx & Hhx & Htop).
      destruct (linked_descends P (fun y => y ∈ view t') (view t') head x
                  (submittedAtHead tx) d Hwn HPv' HPs
                  ltac:(apply Forall_forall; auto) Hl' Htop Hx Hhx
                  ltac:(lia)) as [Hdesc Hnum].
      assert (Hva : view_after getHeadByHash s (head :: rest) 0 = view t').
      { unfold view_after, run_heads. cbn [take foldl]. unfold deliver.
        rewrite Hon. reflexivity. }
      exists 0, head, d, x. rewrite Hva.
      repeat split; assumption.
    + destruct (IH (mkSystem t' (foldl handle_event (txs s) events)) tx' Hrest)
        as (j & hd & k & x & Hj & Hk & Htop & Hx & Hhx & Hdesc & Hnum);
        cbn [tracker txs]; try assumption; try congruence.
      assert (Hva : view_after getHeadByHash s (head :: rest) (S j)
                    = view_after getHeadByHash
                        (mkSystem t' (foldl handle_event (txs s) events))
                        rest j).
      { unfold view_after, run_heads. cbn [take foldl]. unfold deliver at 2.
        rewrite Hon. reflexivity. }
      exists (S j), hd, k, x. rewrite Hva, Hf1, Hf2 in *.
      repeat split; assumption.
Qed.


End Confirmation.

(** ** The examples *)

Section Examples.

Import engine.
Local Open Scope nat_scope.

Lemma no_adapter_sound : adapter_sound no_adapter.
Proof. intros h x Hx. discriminate. Defined.

Lemma example_chain_numbered : well_numbered (fun x => x ∈ example_chain).
Proof.
  intros a b Ha Hb.
  unfold example_chain in Ha, Hb.
  repeat (apply elem_of_cons in Ha as [-> | Ha]);
    try (apply elem_of_nil in Ha; contradiction);
    repeat (apply elem_of_cons in Hb as [-> | Hb]);
    try (apply elem_of_nil in Hb; contradiction);
    cbn; intros Hp; try discriminate; reflexivity.
Defined.

Lemma example_chain_Forall (l : list Head) :
  forallb (fun x => bool_decide (x ∈ example_chain)) l = true ->
  Forall (fun x => x ∈ example_chain) l.
Proof.
  intros H. apply Forall_forall. intros x Hx.
  rewrite forallb_forall in H. apply list_elem_of_In in Hx.
  apply (bool_decide_eq_true_1 _ (H x Hx)).
Defined.

(** From an empty view, delivering H1, H2, H3 builds the chain the reorg
    example starts from. *)
Example tracker_builds_chain :
  view (foldl (fun t x => (onNewHead no_adapter t x).1)
          (mkHeadTracker [] 5 [3]) [H1; H2; H3])
  = view example_tracker.
Proof. reflexivity. Qed.

End Examples.


Lemma reorg_on_competing_branch_witness :
  let '(t1, events1) :=
    engine.onNewHead engine.no_adapter engine.example_tracker engine.H2' in
  let '(t2, events2) := engine.onNewHead engine.no_adapter t1 engine.H3' in
  filter (fun e => engine.is_Reorg e) (events1 ++ events2)
  = [engine.Reorg engine.H1 ["H3"; "H2"] ["H2'"]]
  /\ engine.view t2 = [engine.H3'; engine.H2'; engine.H1].
Proof.
  pose proof (reorg_on_competing_branch engine.no_adapter
                engine.example_tracker engine.H1 engine.H2 engine.H3
                engine.H2' engine.H3' [] eq_refl eq_refl eq_refl eq_refl
                eq_refl ltac:(discriminate) ltac:(discriminate)) as Hr.
  destruct (engine.onNewHead engine.no_adapter engine.example_tracker
              engine.H2') as [t1 events1].
  destruct (engine.onNewHead engine.no_adapter t1 engine.H3')
    as [t2 events2].
  destruct Hr as (Hf & _ & Hv). split; [exact Hf | exact Hv].
Defined.


(** ** Trigger functions: what the comparisons depend on *)

Section TriggerProperties.

Import triggerfns.
Local Open Scope Q_scope.

Lemma bool_eq_iff (b b' : bool) : (b = true <-> b' = true) -> b = b'.
Proof. destruct b, b'; intros [H1 H2]; auto; symmetry; auto. Qed.

Lemma absoluteThreshold_result (threshold : float64) (fn : floatTriggerFn)
  (current new : Decimal) (extraData : list any) :
  absoluteThresholdFactory (any_float64 threshold) = Return (Some fn, None) ->
  Triggering fn current new extraData
  = Return (negb (LessThan (Abs (Sub current new)) (NewFromFloat threshold)),
            None).
Proof. intros [= <-]. reflexivity. Qed.

Lemma absoluteThreshold_true_iff (threshold : float64) (current new : Decimal) :
  negb (LessThan (Abs (Sub current new)) (NewFromFloat threshold)) = true
  <-> float64_toQ threshold <= Qabs (toQ current - toQ new).
Proof.
  rewrite not_LessThan_spec, toQ_Abs, toQ_Sub, toQ_NewFromFloat. reflexivity.
Qed.

Lemma relativeThreshold_result_zero (threshold : float64) (fn : floatTriggerFn)
  (current new : Decimal) (extraData : list any) :
  relativeThresholdFactory (any_float64 threshold) = Return (Some fn, None) ->
  toQ current == 0 ->
  Triggering fn current new extraData
  = Return (negb (Sign new =? 0)%Z, None).
Proof.
  intros [= <-] Hz. apply Sign_zero in Hz.
  cbn [Triggering floatTriggerFn_TriggerFn triggering]. rewrite Hz.
  reflexivity.
Qed.

Lemma relativeThreshold_result_nonzero (threshold : float64)
  (fn : floatTriggerFn) (current new : Decimal) (extraData : list any) :
  relativeThresholdFactory (any_float64 threshold) = Return (Some fn, None) ->
  ~ toQ current == 0 ->
  exists b : bool,
    Triggering fn current new extraData = Return (b, None)
    /\ (b = true <->
        float64_toQ threshold
        <= Qabs (Qround_places 16 ((toQ current - toQ new) / toQ current))).
Proof.
  intros [= <-] Hc. rewrite <- Sign_zero in Hc.
  destruct (DivRound_spec (Sub current new) current DivisionPrecision Hc)
    as (quo & Hquo & Hval).
  exists (negb (LessThan (Abs quo) (NewFromFloat threshold))).
  cbn [Triggering floatTriggerFn_TriggerFn triggering].
  apply Z.eqb_neq in Hc as Hc'. rewrite Hc'. cbn [negb].
  unfold Div. rewrite Hquo. split; [reflexivity |].
  rewrite not_LessThan_spec, toQ_Abs, toQ_NewFromFloat, Hval.
  unfold DivisionPrecision. rewrite toQ_Sub. reflexivity.
Qed.

(** X1: The absoluteThreshold result is a function of the difference
    current - new alone: two pairs of decimals with the same difference, in
    whatever representation, get the same answer. *)
Theorem absoluteThreshold_difference_only
  (threshold : float64) (fn : floatTriggerFn)
  (current new current' new' : Decimal) (extraData : list any) :
  absoluteThresholdFactory (any_float64 threshold) = Return (Some fn, None) ->
  toQ current - toQ new == toQ current' - toQ new' ->
  Triggering fn current new extraData = Triggering fn current' new' extraData.
Proof.
  intros Hf Hd. rewrite !(absoluteThreshold_result threshold fn) by exact Hf.
  do 2 f_equal. apply bool_eq_iff.
  rewrite !absoluteThreshold_true_iff, Hd. reflexivity.
Qed.

(** X2: With current != 0 the relativeThreshold result is a function of the
    ratio new / current alone: rescaling both values by a common factor, or
    writing them with other exponents, does not change the answer. *)
Theorem relativeThreshold_ratio_only
  (threshold : float64) (fn : floatTriggerFn)
  (current new current' new' : Decimal) (extraData : list any) :
  relativeThresholdFactory (any_float64 threshold) = Return (Some fn, None) ->
  ~ toQ current == 0 ->
  ~ toQ current' == 0 ->
  toQ new / toQ current == toQ new' / toQ current' ->
  Triggering fn current new extraData = Triggering fn current' new' extraData.
Proof.
  intros Hf Hc Hc' Hr.
  destruct (relativeThreshold_result_nonzero threshold fn current new
              extraData Hf Hc) as (b & Hb & Hiff).
  destruct (relativeThreshold_result_nonzero threshold fn current' new'
              extraData Hf Hc') as (b' & Hb' & Hiff').
  rewrite Hb, Hb'. do 2 f_equal. apply bool_eq_iff.
  rewrite Hiff, Hiff'.
  assert (Hq : (toQ current - toQ new) / toQ current
               == (toQ current' - toQ new') / toQ current').
  { transitivity (1 - toQ new / toQ current); [field; exact Hc |].
    rewrite Hr. field. exact Hc'. }
  rewrite Hq. reflexivity.
Qed.

Lemma Qround_half_away_error (y : Q) :
  Qabs (inject_Z (Qround_half_away y) - y) <= 1 # 2.
Proof.
  apply Qabs_Qle_condition. unfold Qround_half_away.
  destruct y as [[| n | n] d]; cbn [Qnum Z.sgn].
  - rewrite Z.mul_0_l. unfold Qle, Qminus, Qplus, Qopp, inject_Z; simpl. lia.
  - rewrite Z.mul_1_l.
    change (Qabs (Z.pos n # d)) with (Z.pos n # d).
    pose proof (Qfloor_le ((Z.pos n # d) + (1 # 2))) as H1.
    pose proof (Qlt_floor ((Z.pos n # d) + (1 # 2))) as H2.
    rewrite inject_Z_plus in H2. change (inject_Z 1) with 1 in H2.
    revert H1 H2.
    generalize (inject_Z (Qfloor ((Z.pos n # d) + (1 # 2)))) as m.
    generalize (Z.pos n # d) as y. intros y m H1 H2. split; lra.
  - change (Qabs (Z.neg n # d)) with (Z.pos n # d).
    assert (Hy : (Z.neg n # d) == - (Z.pos n # d)) by reflexivity.
    pose proof (Qfloor_le ((Z.pos n # d) + (1 # 2))) as H1.
    pose proof (Qlt_floor ((Z.pos n # d) + (1 # 2))) as H2.
    rewrite inject_Z_plus in H2. change (inject_Z 1) with 1 in H2.
    replace (-1 * Qfloor ((Z.pos n # d) + (1 # 2)))%Z
      with (- Qfloor ((Z.pos n # d) + (1 # 2)))%Z by lia.
    rewrite inject_Z_opp, Hy. revert H1 H2.
    generalize (inject_Z (Qfloor ((Z.pos n # d) + (1 # 2)))) as m.
    generalize (Z.pos n # d) as y. intros y m H1 H2. split; lra.
Qed.

(** Rounding to [p] places moves a number by at most half a unit of the
    last place. *)
Lemma Qround_places_error (p : Z) (x : Q) :
  Qabs (Qround_places p x - x) <= (1 # 2) * (10 # 1) ^ (- p).
Proof.
  unfold Qround_places.
  assert (Hx : x == x * (10 # 1) ^ p * (10 # 1) ^ (- p)).
  { rewrite <- Qmult_assoc, <- (Qpower_plus _ _ _ ten_neq_0).
    replace (p + - p)%Z with 0%Z by lia. change ((10 # 1) ^ 0) with 1. ring. }
  rewrite Hx at 2.
  assert (Hf : inject_Z (Qround_half_away (x * (10 # 1) ^ p)) * (10 # 1) ^ (- p)
               - x * (10 # 1) ^ p * (10 # 1) ^ (- p)
               == (inject_Z (Qround_half_away (x * (10 # 1) ^ p))
                   - x * (10 # 1) ^ p) * (10 # 1) ^ (- p)) by ring.
  rewrite Hf, Qabs_Qmult.
  rewrite (Qabs_pos ((10 # 1) ^ (- p))) by (apply Qlt_le_weak, pow10_pos).
  apply Qmult_le_compat_r; [apply Qround_half_away_error |].
  apply Qlt_le_weak, pow10_pos.
Qed.

Lemma Qround_places_zero (p : Z) (x : Q) : x == 0 -> Qround_places p x == 0.
Proof.
  intros Hx. rewrite (Qround_places_comp p x 0 Hx).
  unfold Qround_places. rewrite Qmult_0_l.
  change (inject_Z (Qround_half_away 0)) with 0. ring.
Qed.

(** X3: Equal values never trigger under a positive threshold, with either
    function. *)
Theorem no_deviation_no_trigger
  (threshold : float64) (rel abs : floatTriggerFn)
  (current new : Decimal) (extraData : list any) :
  relativeThresholdFactory (any_float64 threshold) = Return (Some rel, None) ->
  absoluteThresholdFactory (any_float64 threshold) = Return (Some abs, None) ->
  0 < float64_toQ threshold ->
  toQ current == toQ new ->
  Triggering rel current new extraData = Return (false, None)
  /\ Triggering abs current new extraData = Return (false, None).
Proof.
  intros Hrel Habs Ht Heq. split.
  - destruct (Qeq_dec (toQ current) 0) as [Hz | Hnz].
    + rewrite (relativeThreshold_result_zero threshold rel) by assumption.
      assert (Hn : Sign new = 0%Z) by (apply Sign_zero; rewrite <- Heq; exact Hz).
      rewrite Hn. reflexivity.
    + destruct (relativeThreshold_result_nonzero threshold rel current new
                  extraData Hrel Hnz) as (b & Hb & Hiff).
      rewrite Hb. do 2 f_equal. apply not_true_iff_false. rewrite Hiff.
      rewrite Qround_places_zero by (rewrite Heq; field; rewrite <- Heq; exact Hnz).
      change (Qabs 0) with 0. apply Qlt_not_le, Ht.
  - rewrite (absoluteThreshold_result threshold abs) by exact Habs.
    do 2 f_equal. apply not_true_iff_false.
    rewrite absoluteThreshold_true_iff.
    assert (Hd : toQ current - toQ new == 0) by (rewrite Heq; ring).
    rewrite Hd. change (Qabs 0) with 0. apply Qlt_not_le, Ht.
Qed.

(** X4: A threshold of zero or less makes absoluteThreshold trigger on every
    pair of values, equal ones included. *)
Theorem absoluteThreshold_nonpositive_always
  (threshold : float64) (fn : floatTriggerFn)
  (current new : Decimal) (extraData : list any) :
  absoluteThresholdFactory (any_float64 threshold) = Return (Some fn, None) ->
  float64_toQ threshold <= 0 ->
  Triggering fn current new extraData = Return (true, None).
Proof.
  intros Hf Ht. rewrite (absoluteThreshold_result threshold fn) by exact Hf.
  do 2 f_equal. apply absoluteThreshold_true_iff.
  pose proof (Qabs_nonneg (toQ current - toQ new)). lra.
Qed.

(** X5: A threshold of zero or less makes relativeThreshold trigger on every
    pair of values except current = new = 0. *)
Theorem relativeThreshold_nonpositive
  (threshold : float64) (fn : floatTriggerFn)
  (current new : Decimal) (extraData : list any) :
  relativeThresholdFactory (any_float64 threshold) = Return (Some fn, None) ->
  float64_toQ threshold <= 0 ->
  exists b : bool,
    Triggering fn current new extraData = Return (b, None)
    /\ (b = false <-> toQ current == 0 /\ toQ new == 0).
Proof.
  intros Hf Ht. destruct (Qeq_dec (toQ current) 0) as [Hz | Hnz].
  - exists (negb (Sign new =? 0)%Z).
    split; [apply (relativeThreshold_result_zero threshold); assumption |].
    rewrite negb_false_iff, Z.eqb_eq, Sign_zero. tauto.
  - destruct (relativeThreshold_result_nonzero threshold fn current new
                extraData Hf Hnz) as (b & Hb & Hiff).
    exists b. split; [exact Hb |].
    assert (Htrue : b = true).
    { apply Hiff.
      pose proof (Qabs_nonneg (Qround_places 16
                    ((toQ current - toQ new) / toQ current))). lra. }
    rewrite Htrue. split; [discriminate | tauto].
Qed.

(** X6: Lowering the threshold never silences a trigger: what triggers under t
    triggers under every t' <= t, with either function. *)
Theorem lower_threshold_still_triggers
  (t t' : float64) (rel rel' abs abs' : floatTriggerFn)
  (current new : Decimal) (extraData : list any) :
  relativeThresholdFactory (any_float64 t) = Return (Some rel, None) ->
  relativeThresholdFactory (any_float64 t') = Return (Some rel', None) ->
  absoluteThresholdFactory (any_float64 t) = Return (Some abs, None) ->
  absoluteThresholdFactory (any_float64 t') = Return (Some abs', None) ->
  float64_toQ t' <= float64_toQ t ->
  (Triggering rel current new extraData = Return (true, None) ->
   Triggering rel' current new extraData = Return (true, None))
  /\ (Triggering abs current new extraData = Return (true, None) ->
      Triggering abs' current new extraData = Return (true, None)).
Proof.
  intros Hrel Hrel' Habs Habs' Hle. split.
  - destruct (Qeq_dec (toQ current) 0) as [Hz | Hnz].
    + rewrite (relativeThreshold_result_zero t rel),
        (relativeThreshold_result_zero t' rel') by assumption. auto.
    + destruct (relativeThreshold_result_nonzero t rel current new
                  extraData Hrel Hnz) as (b & Hb & Hiff).
      destruct (relativeThreshold_result_nonzero t' rel' current new
                  extraData Hrel' Hnz) as (b' & Hb' & Hiff').
      rewrite Hb, Hb'. intros [= ->]. do 2 f_equal.
      apply Hiff'. assert (Ht : float64_toQ t <= _) by (apply Hiff; reflexivity).
      lra.
  - rewrite (absoluteThreshold_result t abs),
      (absoluteThreshold_result t' abs') by assumption.
    intros [= Hb]. do 2 f_equal.
    apply absoluteThreshold_true_iff. apply absoluteThreshold_true_iff in Hb.
    lra.
Qed.

(** X7: relativeThreshold agrees with the exact comparison outside a margin of
    5 * 10^-17 around the threshold: a ratio of at least t + 5e-17 triggers,
    a ratio below t - 5e-17 does not. *)
Theorem relativeThreshold_exact_outside_margin
  (threshold : float64) (fn : floatTriggerFn)
  (current new : Decimal) (extraData : list any) :
  relativeThresholdFactory (any_float64 threshold) = Return (Some fn, None) ->
  ~ toQ current == 0 ->
  (float64_toQ threshold + (1 # 20000000000000000)
   <= Qabs (toQ current - toQ new) / Qabs (toQ current) ->
   Triggering fn current new extraData = Return (true, None))
  /\ (Qabs (toQ current - toQ new) / Qabs (toQ current)
      + (1 # 20000000000000000) < float64_toQ threshold ->
      Triggering fn current new extraData = Return (false, None)).
Proof.
  intros Hf Hnz.
  destruct (relativeThreshold_result_nonzero threshold fn current new
              extraData Hf Hnz) as (b & Hb & Hiff).
  set (q := (toQ current - toQ new) / toQ current) in *.
  assert (Hq : Qabs (toQ current - toQ new) / Qabs (toQ current) == Qabs q).
  { unfold q, Qdiv. rewrite Qabs_Qmult, Qabs_Qinv. reflexivity. }
  pose proof (Qround_places_error 16 q) as Herr.
  assert (Hh : (1 # 2) * (10 # 1) ^ (- (16)) == 1 # 20000000000000000)
    by reflexivity.
  rewrite Hh in Herr.
  pose proof (Qabs_triangle_reverse q (Qround_places 16 q)) as H1.
  pose proof (Qabs_triangle_reverse (Qround_places 16 q) q) as H2.
  rewrite (Qabs_Qminus q (Qround_places 16 q)) in H1.
  rewrite Hb, Hq. split; intros Hm; do 2 f_equal.
  - apply Hiff. lra.
  - apply not_true_iff_false. rewrite Hiff. lra.
Qed.

(** X8: A move from a non-zero value to zero counts as a deviation of exactly
    1: relativeThreshold triggers on it exactly when t <= 1. *)
Theorem relativeThreshold_drop_to_zero
  (threshold : float64) (fn : floatTriggerFn)
  (current new : Decimal) (extraData : list any) :
  relativeThresholdFactory (any_float64 threshold) = Return (Some fn, None) ->
  ~ toQ current == 0 ->
  toQ new == 0 ->
  exists b : bool,
    Triggering fn current new extraData = Return (b, None)
    /\ (b = true <-> float64_toQ threshold <= 1).
Proof.
  intros Hf Hnz Hn.
  destruct (relativeThreshold_result_nonzero threshold fn current new
              extraData Hf Hnz) as (b & Hb & Hiff).
  exists b. split; [exact Hb |]. rewrite Hiff.
  assert (Hq : (toQ current - toQ new) / toQ current == 1)
    by (rewrite Hn; field; exact Hnz).
  rewrite (Qround_places_comp 16 _ _ Hq).
  assert (H1 : Qabs (Qround_places 16 1) == 1) by reflexivity.
  rewrite H1. reflexivity.
Qed.

End TriggerProperties.

(** ** [makeTriggerFn], [Scan] and [Value] together *)

Section Construction.

Import triggerfns.
Local Open Scope nat_scope.


(** A registered factory puts the name it is registered under, and the
    parameter it was given, into the trigger function it builds. *)
Lemma factory_reports (name : string)
  (fac : any -> exec (TriggerFnValue * error)) (params : any)
  (tfn : floatTriggerFn) :
  triggerFnFactories !! name = Some fac ->
  fac params = Return (Some tfn, None) ->
  Factory tfn = name /\ Parameters tfn = params.
Proof.
  rewrite registered_lookup.
  destruct (decide (name = "relativeThreshold")) as [-> | Hr];
    [| destruct (decide (name = "absoluteThreshold")) as [-> | Ha]];
    [intros [= <-] | intros [= <-] | discriminate];
    destruct params; cbn; intros [=]; subst; split; reflexivity.
Qed.

End Construction.

Section ScanAndValue.

Import triggerfns.
Local Open Scope nat_scope.

Variable growslice : nat -> nat -> nat.
Context {JSON : Type}.
Variable JSON_Scan : any -> JSON * error.
Variable JSON_IsObject : JSON -> bool.
Variable JSON_AsMap : JSON -> list (string * any) * error.
Variable JSON_String : JSON -> string.
Variable JSON_MultiAdd : gmap string any -> JSON * error.
Variable JSON_Bytes : JSON -> string.

(** X10: [Scan] returns an error exactly when the input is not read as a JSON
    object with a readable map; the error is [getTriggerFnMap]'s, and the
    store is then exactly what it was.  It returns the nil error exactly
    when the input is read as such an object and no registered name has an
    infinity or NaN as parameter. *)
Theorem Scan_error_iff (h : heap) (f : TriggerFns) (value : any) :
  ((forall e,
      (Scan growslice JSON_Scan JSON_IsObject JSON_AsMap JSON_String
         f value h).2 <> Return (Some e)) <->
   exists json asMap,
     JSON_Scan value = (json, None) /\ JSON_IsObject json = true
     /\ JSON_AsMap json = (asMap, None))
  /\ (forall e,
        (Scan growslice JSON_Scan JSON_IsObject JSON_AsMap JSON_String
           f value h).2 = Return (Some e) ->
        Scan growslice JSON_Scan JSON_IsObject JSON_AsMap JSON_String f value h
        = (h, Return (getTriggerFnMap JSON_Scan JSON_IsObject JSON_AsMap
                        JSON_String value).2))
  /\ ((Scan growslice JSON_Scan JSON_IsObject JSON_AsMap JSON_String
         f value h).2 = Return None <->
      exists json asMap,
        JSON_Scan value = (json, None) /\ JSON_IsObject json = true
        /\ JSON_AsMap json = (asMap, None) /\ finite_parameters asMap).
Proof.
  unfold Scan, getTriggerFnMap.
  destruct (JSON_Scan value) as [json [e |]] eqn:Hs; cbn [fst snd].
  - split; [| split; [reflexivity |]].
    + split; [intros H; destruct (H _ eq_refl) | intros (j & m & [=] & _)].
    + split; [discriminate | intros (j & m & [=] & _)].
  - destruct (JSON_IsObject json) eqn:Ho; cbn [negb fst snd].
    + destruct (JSON_AsMap json) as [asMap [e |]] eqn:Hm; cbn [fst snd].
      * split; [| split; [reflexivity |]].
        -- split; [intros H; destruct (H _ eq_refl) |].
           intros (j & m & [= <-] & _ & Hm').
           rewrite Hm in Hm'. discriminate.
        -- split; [discriminate |].
           intros (j & m & [= <-] & _ & Hm' & _).
           rewrite Hm in Hm'. discriminate.
      * pose proof (Scan_range_returns growslice asMap h f) as Hret.
        destruct (Scan_range growslice asMap h f) as [h' [f' | msg]];
          cbn [fst snd mbind exec_mbind exec_bind] in *.
        -- split; [| split; [discriminate |]].
           ++ split; [intros _; exists json, asMap; auto | discriminate].
           ++ split; [| reflexivity]. intros _. exists json, asMap.
              repeat split; try assumption. apply Hret. eauto.
        -- split; [| split; [discriminate |]].
           ++ split; [intros _; exists json, asMap; auto | discriminate].
           ++ split; [discriminate |].
              intros (j & m & [= <-] & _ & Hm' & Hfin).
              rewrite Hm in Hm'. injection Hm' as <-.
              apply Hret in Hfin as [f' [=]].
    + split; [| split; [reflexivity |]].
      * split; [intros H; destruct (H _ eq_refl) |].
        intros (j & m & [= <-] & Ho' & _). congruence.
      * split; [discriminate |].
        intros (j & m & [= <-] & Ho' & _). congruence.
Qed.

Lemma append_in_place (h : heap) (f : TriggerFns) (x : TriggerFnValue) :
  len f < cap f ->
  (append growslice h f x).2 = mkSlice (array f) (offset f) (S (len f)) (cap f).
Proof.
  intros Hlt. unfold append. rewrite decide_True by exact Hlt. reflexivity.
Qed.

(** While spare capacity lasts the loop writes what it parsed into the
    array of the receiver, behind the old elements. *)
Lemma Scan_range_in_place (asMap : list (string * any)) (h : heap)
  (f : TriggerFns) :
  wf_slice h f ->
  len f + length asMap <= cap f ->
  elems (Scan_range growslice asMap h f).1
        (mkSlice (array f) (offset f) (len f + length (parsed asMap)) (cap f))
  = elems h f ++ parsed asMap.
Proof.
  revert h f. induction asMap as [| [name params] rest IH]; intros h f Hwf Hc.
  - cbn. rewrite Nat.add_0_r, app_nil_r. destruct f; reflexivity.
  - cbn [Scan_range parsed length] in *.
    destruct (makeTriggerFn name params) as [[triggerFn err] | msg].
    + pose proof (append_in_place h f triggerFn ltac:(lia)) as Hap.
      destruct (append_elems growslice h f triggerFn Hwf) as [He Hw].
      destruct (append growslice h f triggerFn) as [h' f'].
      cbn [fst snd] in *. subst f'.
      specialize (IH h' _ Hw ltac:(cbn; lia)).
      cbn [array offset len cap length] in *.
      replace (len f + S (length (parsed rest)))
        with (S (len f) + length (parsed rest)) by lia.
      rewrite IH, He, <- app_assoc. reflexivity.
    + cbn [fst length]. rewrite Nat.add_0_r, app_nil_r.
      destruct f; reflexivity.
Qed.

(** X11: While spare capacity lasts [Scan] writes into the caller's backing
    array: a holder who re-slices the collection to the longer length sees
    the parsed trigger functions behind the old elements, those of the
    entries before a panic when [Scan] panics. *)
Theorem Scan_fills_spare_capacity
  (h : heap) (f : TriggerFns) (value : any) (json : JSON)
  (asMap : list (string * any)) :
  wf_slice h f ->
  len f + length asMap <= cap f ->
  JSON_Scan value = (json, None) ->
  JSON_IsObject json = true ->
  JSON_AsMap json = (asMap, None) ->
  exists (h' : heap) (r : exec error),
    Scan growslice JSON_Scan JSON_IsObject JSON_AsMap JSON_String f value h
    = (h', r)
    /\ elems h' (mkSlice (array f) (offset f)
                   (len f + length (parsed asMap)) (cap f))
       = elems h f ++ parsed asMap
    /\ (finite_parameters asMap ->
        r = Return None
        /\ Forall2 (fun e x =>
                      exists err, makeTriggerFn e.1 e.2 = Return (x, err))
                   asMap (parsed asMap)).
Proof.
  intros Hwf Hcap Hscan Hobj Hmap.
  unfold Scan, getTriggerFnMap. rewrite Hscan, Hobj. cbn [negb].
  rewrite Hmap.
  pose proof (Scan_range_in_place asMap h f Hwf Hcap) as Hpl.
  pose proof (Scan_range_returns growslice asMap h f) as Hret.
  destruct (Scan_range growslice asMap h f) as [h' r].
  cbn [fst snd] in *. eexists. eexists. split; [reflexivity |].
  split; [exact Hpl |]. intros Hfin.
  split; [| apply parsed_finite, Hfin].
  apply Hret in Hfin as [f' ->]. reflexivity.
Qed.

(** X12: [Scan] leaves every collection on another backing array as it was. *)
Theorem Scan_leaves_other_arrays
  (h : heap) (f g : TriggerFns) (value : any) :
  wf_slice h g ->
  array g <> array f ->
  elems (Scan growslice JSON_Scan JSON_IsObject JSON_AsMap JSON_String
           f value h).1 g
  = elems h g.
Proof.
  intros Hg Hne. unfold Scan.
  destruct (getTriggerFnMap JSON_Scan JSON_IsObject JSON_AsMap JSON_String
              value) as [asMap [e |]]; [reflexivity |].
  pose proof (Scan_range_frame growslice asMap h f g Hg) as Hfr.
  destruct (Scan_range growslice asMap h f) as [h' f'].
  cbn [fst] in *. apply Hfr. intros Heq. congruence.
Qed.

(** *** [Value] *)

Lemma Value_range_Some (ts : list floatTriggerFn) (entries : gmap string any) :
  Value_range (Some <$> ts) entries
  = Return (foldl (fun m t => <[Factory t := Parameters t]> m) entries ts).
Proof.
  revert entries. induction ts as [| t rest IH]; intros entries;
    [reflexivity |].
  cbn [fmap list_fmap Value_range foldl]. apply IH.
Qed.

Lemma Value_range_nil_panics (fns : list TriggerFnValue)
  (entries : gmap string any) :
  None ∈ fns ->
  Value_range fns entries
  = Panic "runtime error: invalid memory address or nil pointer dereference".
Proof.
  revert entries. induction fns as [| [t |] rest IH]; intros entries Hin.
  - apply elem_of_nil in Hin. contradiction.
  - cbn. apply IH. apply elem_of_cons in Hin as [[=] | Hin]. exact Hin.
  - reflexivity.
Qed.

Lemma all_Some (fns : list TriggerFnValue) :
  None ∉ fns -> exists ts : list floatTriggerFn, fns = Some <$> ts.
Proof.
  induction fns as [| [t |] rest IH]; intros Hn.
  - exists []. reflexivity.
  - destruct IH as [ts ->].
    + intros Hin. apply Hn. right. exact Hin.
    + exists (t :: ts). reflexivity.
  - exfalso. apply Hn. left.
Qed.

(** X13: [Value] panics, with the runtime's nil-dereference error, exactly
    when the collection holds a nil [TriggerFn]; otherwise it returns the
    bytes with a nil error, or nil with an error. *)
Theorem Value_panics_iff_nil (h : heap) (f : TriggerFns) :
  (None ∈ elems h f ->
   Value JSON_MultiAdd JSON_Bytes f h
   = Panic "runtime error: invalid memory address or nil pointer dereference")
  /\ (None ∉ elems h f ->
      exists r, Value JSON_MultiAdd JSON_Bytes f h = Return r
                /\ (is_Some r.1 <-> r.2 = None)).
Proof.
  unfold Value. split.
  - intros Hin. rewrite (Value_range_nil_panics _ _ Hin). reflexivity.
  - intros Hn. destruct (all_Some _ Hn) as [ts ->].
    rewrite Value_range_Some. cbn [mbind exec_mbind exec_bind].
    destruct (JSON_MultiAdd _) as [asJSON [e |]]; eexists;
      (split; [reflexivity |]); cbn [fst snd].
    + split; [intros [? [=]] | discriminate].
    + split; [reflexivity | eauto].
Qed.

Lemma foldl_entries_keep (ts : list floatTriggerFn) (m : gmap string any)
  (k : string) (v : any) :
  m !! k = Some v ->
  (forall u, u ∈ ts -> Factory u <> k) ->
  foldl (fun m t => <[Factory t := Parameters t]> m) m ts !! k = Some v.
Proof.
  revert m. induction ts as [| t rest IH]; intros m Hm Hne; [exact Hm |].
  cbn [foldl]. apply IH.
  - rewrite lookup_insert_ne; [exact Hm |]. apply Hne. left.
  - intros u Hu. apply Hne. right. exact Hu.
Qed.

Lemma foldl_entries_dom (ts : list floatTriggerFn) (m : gmap string any) :
  dom (foldl (fun m t => <[Factory t := Parameters t]> m) m ts)
  = dom m ∪ list_to_set (Factory <$> ts).
Proof.
  revert m. induction ts as [| t rest IH]; intros m.
  - cbn. rewrite union_empty_r_L. reflexivity.
  - cbn [foldl fmap list_fmap list_to_set]. rewrite IH, dom_insert_L.
    rewrite (assoc_L (∪) (dom m)), (comm_L (∪) (dom m)). reflexivity.
Qed.

(** X14: The entries [Value] serializes: one per factory name in the collection,
    and under each name the parameters of the last trigger function of that
    name. *)
Theorem Value_entries_last_wins (h : heap) (f : TriggerFns)
  (ts : list floatTriggerFn) :
  elems h f = Some <$> ts ->
  exists entries : gmap string any,
    Value_range (elems h f) ∅ = Return entries
    /\ dom entries = list_to_set (Factory <$> ts)
    /\ forall pre t post,
         ts = pre ++ t :: post ->
         (forall u, u ∈ post -> Factory u <> Factory t) ->
         entries !! Factory t = Some (Parameters t).
Proof.
  intros He. rewrite He, Value_range_Some. eexists. split; [reflexivity |].
  split.
  - rewrite foldl_entries_dom, dom_empty_L, union_empty_l_L. reflexivity.
  - intros pre t post -> Hpost. rewrite foldl_app. cbn [foldl].
    apply foldl_entries_keep; [apply lookup_insert_eq | exact Hpost].
Qed.

Lemma foldl_insert_list_to_map (l : list (string * any)) (m : gmap string any) :
  NoDup l.*1 ->
  foldl (fun m e => <[e.1 := e.2]> m) m l = list_to_map l ∪ m.
Proof.
  revert m. induction l as [| [k v] rest IH]; intros m Hnd.
  - cbn. rewrite (left_id_L ∅ (∪)). reflexivity.
  - cbn in Hnd. apply NoDup_cons in Hnd as [Hk Hnd].
    cbn [foldl list_to_map foldr fst snd]. rewrite (IH _ Hnd).
    rewrite <- insert_union_l. symmetry. apply insert_union_r.
    apply not_elem_of_list_to_map_1. exact Hk.
Qed.

Lemma Value_range_built (asMap : list (string * any))
  (ts : list floatTriggerFn) (m : gmap string any) :
  Forall2 (fun e tfn =>
             exists fac, triggerFnFactories !! e.1 = Some fac
                         /\ fac e.2 = Return (Some tfn, None)) asMap ts ->
  Value_range (Some <$> ts) m
  = Return (foldl (fun m e => <[e.1 := e.2]> m) m asMap).
Proof.
  intros Hb. revert m.
  induction Hb as [| [k v] tfn rest ts' (fac & Hfac & Hres) _ IH]; intros m;
    [reflexivity |].
  cbn [fst snd] in *.
  destruct (factory_reports k fac v tfn Hfac Hres) as [Hf Hp].
  cbn [fmap list_fmap Value_range foldl fst snd].
  rewrite Hf, Hp. apply IH.
Qed.

(** X15: Serializing inverts construction: a collection that holds, for each
    entry of a map of distinct names, the trigger function the factory
    registered under the name builds from the parameter, hands exactly
    that map to the serializer, and [Value] returns the serializer's
    bytes. *)
Theorem Value_inverts_factories
  (h : heap) (f : TriggerFns) (asMap : list (string * any))
  (ts : list floatTriggerFn) :
  NoDup asMap.*1 ->
  Forall2 (fun e tfn =>
             exists fac, triggerFnFactories !! e.1 = Some fac
                         /\ fac e.2 = Return (Some tfn, None)) asMap ts ->
  elems h f = Some <$> ts ->
  Value_range (elems h f) ∅ = Return (list_to_map asMap)
  /\ forall asJSON,
       JSON_MultiAdd (list_to_map asMap) = (asJSON, None) ->
       Value JSON_MultiAdd JSON_Bytes f h
       = Return (Some (JSON_Bytes asJSON), None).
Proof.
  intros Hnd Hb He.
  assert (Hr : Value_range (elems h f) ∅ = Return (list_to_map asMap)).
  { rewrite He, (Value_range_built asMap ts ∅ Hb).
    rewrite (foldl_insert_list_to_map asMap ∅ Hnd).
    rewrite (right_id_L ∅ (∪)). reflexivity. }
  split; [exact Hr |]. intros asJSON Hj. unfold Value. rewrite Hr.
  cbn [mbind exec_mbind exec_bind]. rewrite Hj. reflexivity.
Qed.

End ScanAndValue.

(** ** [searchQuery]: what a result tells *)

Section SearchQueryMore.

Import explorer.

Context {Location : Type}.
Variable toString : Location -> string.
Variable new_URL_searchParams : string -> exec (list (string * string)).

Lemma get_Some_has_param (name : string) (params : list (string * string))
  (v : string) :
  URLSearchParams_get name params = Some v -> has_param name params v.
Proof.
  induction params as [| [k w] rest IH]; cbn; [discriminate |].
  destruct (String.eqb_spec k name) as [-> | Hne].
  - intros [= ->]. exists [], rest. split; [reflexivity |].
    intros u Hu. apply elem_of_nil in Hu. contradiction.
  - intros Hg. destruct (IH Hg) as (pre & post & -> & Hpre).
    exists ((k, w) :: pre), post. split; [reflexivity |].
    intros u Hu. apply elem_of_cons in Hu as [[= Hk _] | Hu].
    + congruence.
    + apply (Hpre u Hu).
Qed.

Lemma get_filter (name : string) (params : list (string * string)) :
  URLSearchParams_get name (filter (fun p => p.1 = name) params)
  = URLSearchParams_get name params.
Proof.
  induction params as [| [k w] rest IH]; [reflexivity |].
  cbn [URLSearchParams_get].
  destruct (String.eqb_spec k name) as [-> | Hne].
  - rewrite filter_cons_True by reflexivity. cbn.
    rewrite String.eqb_refl. reflexivity.
  - rewrite filter_cons_False by exact Hne. exact IH.
Qed.

(** X16: Whatever [searchQuery] returns as a string is not empty and is the
    value of the first 'search' pair of the URL; an exception of the URL
    constructor comes out of [searchQuery] as it is. *)
Theorem searchQuery_sound (location : Location) :
  (forall v, searchQuery toString new_URL_searchParams location
             = Return (Some v) ->
             v <> EmptyString
             /\ exists params,
                  new_URL_searchParams (toString location) = Return params
                  /\ has_param "search" params v)
  /\ (forall msg, new_URL_searchParams (toString location) = Panic msg ->
                  searchQuery toString new_URL_searchParams location
                  = Panic msg).
Proof.
  unfold searchQuery. split.
  - intros v. destruct (new_URL_searchParams (toString location))
      as [params | msg]; cbn [mbind exec_mbind exec_bind]; [| discriminate].
    destruct (URLSearchParams_get "search" params) as [s |] eqn:Hg;
      [| discriminate].
    destruct s as [| c s']; cbn [truthy]; [discriminate |].
    intros [= <-]. split; [discriminate |].
    exists params. split; [reflexivity |]. apply get_Some_has_param, Hg.
  - intros msg ->. reflexivity.
Qed.

(** X17: [searchQuery] looks at the 'search' pairs of the query only: two
    locations whose URLs carry the same 'search' pairs, whatever else they
    carry, give the same result. *)
Theorem searchQuery_search_pairs_only (location location' : Location)
  (params params' : list (string * string)) :
  new_URL_searchParams (toString location) = Return params ->
  new_URL_searchParams (toString location') = Return params' ->
  filter (fun p => p.1 = "search"%string) params
  = filter (fun p => p.1 = "search"%string) params' ->
  searchQuery toString new_URL_searchParams location
  = searchQuery toString new_URL_searchParams location'.
Proof.
  intros Hu Hu' Hf. unfold searchQuery. rewrite Hu, Hu'.
  cbn [mbind exec_mbind exec_bind].
  rewrite <- (get_filter "search" params), <- (get_filter "search" params'), Hf.
  reflexivity.
Qed.

End SearchQueryMore.

(** ** Instances of the properties above *)

Lemma absoluteThreshold_difference_only_witness :
  exists fn : triggerfns.floatTriggerFn,
    triggerfns.absoluteThresholdFactory (any_float64 (mkFloat64 5 (-1)))
    = Return (Some fn, None)
    /\ triggerfns.Triggering fn (New 150 (-2)) (New 1 0) []
       = triggerfns.Triggering fn (New 10 0) (New 95 (-1)) [].
Proof.
  eexists. split; [reflexivity |].
  apply (absoluteThreshold_difference_only (mkFloat64 5 (-1)));
    [reflexivity | vm_compute; reflexivity].
Defined.

Lemma relativeThreshold_ratio_only_witness :
  exists fn : triggerfns.floatTriggerFn,
    triggerfns.relativeThresholdFactory (any_float64 (mkFloat64 5 (-1)))
    = Return (Some fn, None)
    /\ triggerfns.Triggering fn (New 3 0) (New 2 0) []
       = triggerfns.Triggering fn (New 300 (-1)) (New 20 0) [].
Proof.
  eexists. split; [reflexivity |].
  apply (relativeThreshold_ratio_only (mkFloat64 5 (-1)));
    [reflexivity | vm_compute; discriminate | vm_compute; discriminate
    | vm_compute; reflexivity].
Defined.

Lemma no_deviation_no_trigger_witness :
  exists rel abs : triggerfns.floatTriggerFn,
    triggerfns.relativeThresholdFactory (any_float64 (mkFloat64 1 (-2)))
    = Return (Some rel, None)
    /\ triggerfns.absoluteThresholdFactory (any_float64 (mkFloat64 1 (-2)))
       = Return (Some abs, None)
    /\ triggerfns.Triggering rel (New 25 (-1)) (New 250 (-2)) []
       = Return (false, None)
    /\ triggerfns.Triggering abs (New 25 (-1)) (New 250 (-2)) []
       = Return (false, None).
Proof.
  eexists. eexists. split; [reflexivity |]. split; [reflexivity |].
  apply (no_deviation_no_trigger (mkFloat64 1 (-2)));
    [reflexivity | reflexivity | vm_compute; reflexivity
    | vm_compute; reflexivity].
Defined.

Lemma absoluteThreshold_nonpositive_always_witness :
  exists fn : triggerfns.floatTriggerFn,
    triggerfns.absoluteThresholdFactory (any_float64 (mkFloat64 0 0))
    = Return (Some fn, None)
    /\ triggerfns.Triggering fn (New 7 0) (New 7 0) [] = Return (true, None).
Proof.
  eexists. split; [reflexivity |].
  apply (absoluteThreshold_nonpositive_always (mkFloat64 0 0));
    [reflexivity | vm_compute; discriminate].
Defined.

Lemma relativeThreshold_nonpositive_witness :
  exists (fn : triggerfns.floatTriggerFn) (b : bool),
    triggerfns.relativeThresholdFactory (any_float64 (mkFloat64 0 0))
    = Return (Some fn, None)
    /\ triggerfns.Triggering fn (New 0 0) (New 0 3) [] = Return (b, None)
    /\ (b = false <-> toQ (New 0 0) == 0 /\ toQ (New 0 3) == 0)%Q.
Proof.
  eexists.
  destruct (relativeThreshold_nonpositive (mkFloat64 0 0) _ (New 0 0)
              (New 0 3) [] eq_refl) as (b & Hb & Hiff).
  - vm_compute. discriminate.
  - exists b. split; [reflexivity |]. split; [exact Hb | exact Hiff].
Defined.

Lemma lower_threshold_still_triggers_witness :
  exists rel rel' abs abs' : triggerfns.floatTriggerFn,
    triggerfns.relativeThresholdFactory (any_float64 (mkFloat64 5 (-1)))
    = Return (Some rel, None)
    /\ triggerfns.relativeThresholdFactory (any_float64 (mkFloat64 1 (-1)))
       = Return (Some rel', None)
    /\ triggerfns.absoluteThresholdFactory (any_float64 (mkFloat64 5 (-1)))
       = Return (Some abs, None)
    /\ triggerfns.absoluteThresholdFactory (any_float64 (mkFloat64 1 (-1)))
       = Return (Some abs', None)
    /\ (triggerfns.Triggering rel (New 2 0) (New 1 0) [] = Return (true, None) ->
        triggerfns.Triggering rel' (New 2 0) (New 1 0) [] = Return (true, None))
    /\ (triggerfns.Triggering abs (New 2 0) (New 1 0) [] = Return (true, None) ->
        triggerfns.Triggering abs' (New 2 0) (New 1 0) [] = Return (true, None)).
Proof.
  do 4 eexists. do 4 (split; [reflexivity |]).
  apply (lower_threshold_still_triggers (mkFloat64 5 (-1)) (mkFloat64 1 (-1)));
    [reflexivity | reflexivity | reflexivity | reflexivity
    | vm_compute; discriminate].
Defined.

Lemma relativeThreshold_exact_outside_margin_witness :
  exists fn : triggerfns.floatTriggerFn,
    triggerfns.relativeThresholdFactory (any_float64 (mkFloat64 5 (-1)))
    = Return (Some fn, None)
    /\ triggerfns.Triggering fn (New 4 0) (New 1 0) [] = Return (true, None).
Proof.
  eexists. split; [reflexivity |].
  apply (relativeThreshold_exact_outside_margin (mkFloat64 5 (-1)));
    [reflexivity | vm_compute; discriminate | vm_compute; discriminate].
Defined.

Lemma Scan_fills_spare_capacity_witness :
  let h : gmap nat (list triggerfns.TriggerFnValue) :=
    {[ 0%nat := [None; None; None] ]} in
  let f := triggerfns.mkSlice 0 0 1 3 in
  let asMap := [("relativeThreshold"%string, any_float64 (mkFloat64 5 (-1)));
                ("medianThreshold"%string, any_nil)] in
  exists h',
    triggerfns.Scan (fun _ needed : nat => needed)
      (fun _ : any => (asMap, @None error_value))
      (fun _ : list (string * any) => true)
      (fun j : list (string * any) => (j, @None error_value))
      (fun _ : list (string * any) => "{...}"%string)
      f (any_string "{...}") h = (h', Return None)
    /\ triggerfns.elems h'
         (triggerfns.mkSlice 0 0 (1 + length (triggerfns.parsed asMap)) 3)
       = triggerfns.elems h f ++ triggerfns.parsed asMap.
Proof.
  cbv zeta.
  destruct (Scan_fills_spare_capacity (fun _ needed : nat => needed)
           (fun _ : any =>
              ([("relativeThreshold"%string, any_float64 (mkFloat64 5 (-1)));
                ("medianThreshold"%string, any_nil)], @None error_value))
           (fun _ : list (string * any) => true)
           (fun j : list (string * any) => (j, @None error_value))
           (fun _ : list (string * any) => "{...}"%string)
           {[ 0%nat := [None; None; None] ]}
           (triggerfns.mkSlice 0 0 1 3) (any_string "{...}")
           [("relativeThreshold"%string, any_float64 (mkFloat64 5 (-1)));
            ("medianThreshold"%string, any_nil)]
           [("relativeThreshold"%string, any_float64 (mkFloat64 5 (-1)));
            ("medianThreshold"%string, any_nil)])
    as (h' & r & Hs & He & Hfin).
  - split; cbn; [lia |]. intros _. eexists. split; [reflexivity | cbn; lia].
  - cbn. lia.
  - reflexivity.
  - reflexivity.
  - reflexivity.
  - destruct Hfin as [-> _]; [repeat constructor; intros x [=] |].
    exists h'. split; [exact Hs | exact He].
Defined.

Lemma Value_entries_last_wins_witness :
  let t1 := triggerfns.mkFloatTriggerFn
              (fun _ _ _ => Return (true, None)) "absoluteThreshold"
              (mkFloat64 5 (-1)) in
  let t2 := triggerfns.mkFloatTriggerFn
              (fun _ _ _ => Return (true, None)) "absoluteThreshold"
              (mkFloat64 1 (-2)) in
  let h : gmap nat (list triggerfns.TriggerFnValue) :=
    {[ 0%nat := [Some t1; Some t2] ]} in
  let f := triggerfns.mkSlice 0 0 2 2 in
  exists entries : gmap string any,
    triggerfns.Value_range (triggerfns.elems h f) ∅ = Return entries
    /\ entries !! "absoluteThreshold" = Some (any_float64 (mkFloat64 1 (-2))).
Proof.
  cbv zeta.
  destruct (Value_entries_last_wins
              {[ 0%nat := [Some (triggerfns.mkFloatTriggerFn
                                   (fun _ _ _ => Return (true, None))
                                   "absoluteThreshold" (mkFloat64 5 (-1)));
                           Some (triggerfns.mkFloatTriggerFn
                                   (fun _ _ _ => Return (true, None))
                                   "absoluteThreshold" (mkFloat64 1 (-2)))] ]}
              (triggerfns.mkSlice 0 0 2 2)
              [triggerfns.mkFloatTriggerFn
                 (fun _ _ _ => Return (true, None))
                 "absoluteThreshold" (mkFloat64 5 (-1));
               triggerfns.mkFloatTriggerFn
                 (fun _ _ _ => Return (true, None))
                 "absoluteThreshold" (mkFloat64 1 (-2))])
    as (entries & He & _ & Hlast); [reflexivity |].
  exists entries. split; [exact He |].
  apply (Hlast [triggerfns.mkFloatTriggerFn
                  (fun _ _ _ => Return (true, None))
                  "absoluteThreshold" (mkFloat64 5 (-1))]
               (triggerfns.mkFloatTriggerFn
                  (fun _ _ _ => Return (true, None))
                  "absoluteThreshold" (mkFloat64 1 (-2)))
               [] eq_refl).
  intros u Hu. apply elem_of_nil in Hu. contradiction.
Defined.

Lemma Value_inverts_factories_witness :
  let asMap := [("relativeThreshold"%string, any_float64 (mkFloat64 5 (-1)));
                ("absoluteThreshold"%string, any_float64 (mkFloat64 1 (-2)))] in
  exists rel abs : triggerfns.floatTriggerFn,
    triggerfns.relativeThresholdFactory (any_float64 (mkFloat64 5 (-1)))
    = Return (Some rel, None)
    /\ triggerfns.absoluteThresholdFactory (any_float64 (mkFloat64 1 (-2)))
       = Return (Some abs, None)
    /\ triggerfns.Value_range
         (triggerfns.elems {[ 0%nat := [Some rel; Some abs] ]}
            (triggerfns.mkSlice 0 0 2 2)) ∅
       = Return (list_to_map asMap).
Proof.
  cbv zeta. eexists. eexists. split; [reflexivity |]. split; [reflexivity |].
  match goal with
  | |- triggerfns.Value_range (triggerfns.elems ?h ?f) ∅ = _ =>
      refine (proj1 (Value_inverts_factories
                       (fun m : gmap string any => (m, @None error_value))
                       (fun _ : gmap string any => "{...}"%string)
                       h f
                       [("relativeThreshold"%string,
                         any_float64 (mkFloat64 5 (-1)));
                        ("absoluteThreshold"%string,
                         any_float64 (mkFloat64 1 (-2)))]
                       [_; _] _ _ _))
  end.
  3: reflexivity.
  - cbn. apply NoDup_cons. split.
    + intros H. apply list_elem_of_singleton in H. discriminate.
    + apply NoDup_singleton.
  - constructor; [| constructor; [| constructor]].
    + exists triggerfns.relativeThresholdFactory.
      split; [rewrite registered_lookup |]; reflexivity.
    + exists triggerfns.absoluteThresholdFactory.
      split; [rewrite registered_lookup |]; reflexivity.
Defined.

Lemma searchQuery_search_pairs_only_witness :
  let new_URL := fun s : string =>
    if String.eqb s "/?search=jobB&page=2"
    then Return [("search"%string, "jobB"%string); ("page"%string, "2"%string)]
    else Return [("lang"%string, "en"%string); ("search"%string, "jobB"%string)] in
  explorer.searchQuery (fun l : string => l) new_URL "/?search=jobB&page=2"%string
  = explorer.searchQuery (fun l : string => l) new_URL "/?lang=en&search=jobB"%string.
Proof.
  cbv zeta.
  exact (searchQuery_search_pairs_only (fun l : string => l)
           (fun s : string =>
              if String.eqb s "/?search=jobB&page=2"
              then Return [("search"%string, "jobB"%string);
                           ("page"%string, "2"%string)]
              else Return [("lang"%string, "en"%string);
                           ("search"%string, "jobB"%string)])
           "/?search=jobB&page=2"%string "/?lang=en&search=jobB"%string
           _ _ eq_refl eq_refl eq_refl).
Defined.

Lemma relativeThreshold_drop_to_zero_witness :
  exists (fn : triggerfns.floatTriggerFn) (b : bool),
    triggerfns.relativeThresholdFactory (any_float64 (mkFloat64 5 (-1)))
    = Return (Some fn, None)
    /\ triggerfns.Triggering fn (New 3 0) (New 0 (-2)) [] = Return (b, None)
    /\ (b = true <-> float64_toQ (mkFloat64 5 (-1)) <= 1)%Q.
Proof.
  eexists.
  destruct (relativeThreshold_drop_to_zero (mkFloat64 5 (-1)) _ (New 3 0)
              (New 0 (-2)) [] eq_refl) as (b & Hb & Hiff).
  - vm_compute. discriminate.
  - vm_compute. reflexivity.
  - exists b. split; [reflexivity |]. split; [exact Hb | exact Hiff].
Defined.

Lemma Scan_leaves_other_arrays_witness :
  let h : gmap nat (list triggerfns.TriggerFnValue) :=
    <[ 1%nat := [None] ]> {[ 0%nat := [None; None] ]} in
  let f := triggerfns.mkSlice 0 0 1 2 in
  let g := triggerfns.mkSlice 1 0 1 1 in
  triggerfns.elems
    (triggerfns.Scan (fun _ needed : nat => needed)
       (fun _ : any =>
          ([("relativeThreshold"%string, any_float64 (mkFloat64 5 (-1)))],
           @None error_value))
       (fun _ : list (string * any) => true)
       (fun j : list (string * any) => (j, @None error_value))
       (fun _ : list (string * any) => "{...}"%string)
       f (any_string "{...}") h).1 g
  = triggerfns.elems h g.
Proof.
  cbv zeta.
  apply (Scan_leaves_other_arrays (fun _ needed : nat => needed)
           (fun _ : any =>
              ([("relativeThreshold"%string, any_float64 (mkFloat64 5 (-1)))],
               @None error_value))
           (fun _ : list (string * any) => true)
           (fun j : list (string * any) => (j, @None error_value))
           (fun _ : list (string * any) => "{...}"%string)).
  - split; cbn; [lia |]. intros _. eexists. split; [reflexivity | cbn; lia].
  - cbn. discriminate.
Defined.
